(** * pilsen25: seeded weight generation, feed-forward inference, winner choice

    A shallow embedding of the numeric core of the React components
    [src/components/NeuralNet.tsx] (the [ActivationCanvas] component: the
    [mulberry32] generator, the [weights] and [allActivations] memos and their
    helpers) and [src/components/Landing.tsx] ([sigmoid] and the [onResult]
    callback that picks the winner).

    Conventions of the embedding.
    - A JavaScript number that holds a value computed in floating point (a
      weight, a bias, an activation, a score) is a binary64 [float].
    - A JavaScript number that holds an integer (a layer size, an array
      length, a team identifier, the 32-bit words of the generator) is a
      [Z]; where arithmetic or printing reads an integer that is not a
      binary64 number, it reads the nearest one.  The 32-bit conversions
      [ToInt32]/[ToUint32] are written out.
    - The seed and the captured variable of the generator are computed by
      binary64 additions and multiplications of integers: they are a
      [Num.number], an integer or one of the values that are not finite, and
      every operation rounds its exact result to the nearest binary64 number.
    - [Array.from({ length: n })] throws a [RangeError] for a length above
      [2^32 - 1]; code that can throw returns a completion.
    - [Math.tanh] and [Math.exp] are approximated in an implementation-defined
      way by the engine; they are parameters of the development.
    - An out-of-range array read gives [undefined], which arithmetic turns
      into [NaN]. *)

From Stdlib Require Import ZArith Floats Lia String DecimalString DecimalZ.
From stdpp Require Import gmap list.

(** ** JavaScript numbers holding integers *)

Module Num.

#[local] Open Scope Z_scope.

Definition two32 : Z := 2 ^ 32.

(** [ToUint32] and [ToInt32] of an integer-valued number. *)
Definition ToUint32 (z : Z) : Z := z mod two32.

Definition ToInt32 (z : Z) : Z :=
  let u := z mod two32 in
  if (u <? 2 ^ 31)%Z then u else (u - two32)%Z.

(** [a ^ b], [a | b], [a >>> n] and [Math.imul(a, b)]. *)
Definition xor (a b : Z) : Z := Z.lxor (ToInt32 a) (ToInt32 b).
Definition or (a b : Z) : Z := Z.lor (ToInt32 a) (ToInt32 b).
Definition ushr (a n : Z) : Z := Z.shiftr (ToUint32 a) (n mod 32).
Definition imul (a b : Z) : Z := ToInt32 (ToUint32 a * ToUint32 b).

(** The binary64 number nearest to an integer (ties to even), as a [float]. *)
Definition of_Z (z : Z) : float :=
  SF2Prim (binary_normalize prec emax z 0 false).

(** A number computed from integers by [+] and [*]: an integer, [Infinity],
    [-Infinity] or [NaN].  ([Finite z] is meant for a [z] that is a binary64
    number, as the results of [round], [add] and [mul] are.  The sign of a
    zero is not kept: nothing that is computed from these numbers reads it.) *)
Inductive number : Type :=
| Finite (z : Z)
| Infinite (negative : bool)
| NotANumber.

(** The binary64 number nearest to an integer (ties to even, overflow to an
    infinity). *)
Definition round (z : Z) : number :=
  match binary_normalize prec emax z 0 false with
  | S754_zero _ => Finite 0
  | S754_finite s m e =>
      let a := if (0 <=? e)%Z then (Z.pos m * 2 ^ e)%Z
               else (Z.pos m / 2 ^ (- e))%Z in
      Finite (if s then (- a)%Z else a)
  | S754_infinity s => Infinite s
  | S754_nan => NotANumber
  end.

(** [a + b] and [a * b]. *)
Definition add (a b : number) : number :=
  match a, b with
  | Finite x, Finite y => round (x + y)
  | NotANumber, _ | _, NotANumber => NotANumber
  | Infinite s, Infinite s' => if Bool.eqb s s' then Infinite s else NotANumber
  | Infinite s, Finite _ | Finite _, Infinite s => Infinite s
  end.

Definition mul (a b : number) : number :=
  match a, b with
  | Finite x, Finite y => round (x * y)
  | NotANumber, _ | _, NotANumber => NotANumber
  | Infinite s, Infinite s' => Infinite (xorb s s')
  | Infinite s, Finite y | Finite y, Infinite s =>
      if (y =? 0)%Z then NotANumber else Infinite (xorb s (y <? 0)%Z)
  end.

(** The integers below [2^53] in magnitude: each is a number of its own, and
    arithmetic that stays among them is exact. *)
Definition safe (z : Z) : Prop := Z.abs z < 2 ^ 53.

(** The integer that [ToInt32] and [ToUint32] start from: a number that is
    not finite is read as 0. *)
Definition integer (a : number) : Z :=
  match a with
  | Finite z => z
  | _ => 0
  end.

(** [ToLength] as [Array.from({ length: n })] applies it to an
    integer-valued [n]: a negative length is an empty array. *)
Definition ToLength (n : Z) : nat := Z.to_nat n.

#[local] Close Scope Z_scope.

(** [a[i]] read as a number: [undefined] becomes [NaN] in arithmetic. *)
Definition at_ (a : list float) (i : nat) : float := default nan (a !! i).

(** The literal [0.1]. *)
Definition tenth : float := 0x1.999999999999ap-4%float.

(** [a.reduce((s, v, i) => f(s, v, i), init)]. *)
Fixpoint reduce_from {A B : Type} (f : B → A → nat → B) (i : nat) (acc : B)
    (a : list A) : B :=
  match a with
  | [] => acc
  | v :: a' => reduce_from f (S i) (f acc v i) a'
  end.

Definition reduce {A B : Type} (f : B → A → nat → B) (init : B)
    (a : list A) : B :=
  reduce_from f 0 init a.

End Num.

(** ** Completions

    A piece of code returns a value or throws.  The source contains no
    [throw]; the one error the modelled code can raise is the engine's
    [RangeError] for an array length above [2^32 - 1].  [InvalidTopology] and
    [ShapeMismatch] are the error names the specification gives. *)

Module Completion.

Inductive error : Type := InvalidTopology | ShapeMismatch | RangeError.

Inductive completion (A : Type) : Type :=
| Normal (a : A)
| Throw (e : error).

Arguments Normal {A} a.
Arguments Throw {A} e.

#[global] Instance completion_ret : MRet completion := fun A a => Normal a.

#[global] Instance completion_bind : MBind completion :=
  fun A B k m => match m with
                 | Normal a => k a
                 | Throw e => Throw e
                 end.

(** The lengths [new Array(len)] accepts. *)
Definition is_array_length (n : Z) : bool := (n <? 2 ^ 32)%Z.

(** Code of a monad [M] that can throw: what follows a throw is skipped. *)
Definition Exc (M : Type → Type) (A : Type) : Type := M (completion A).

#[global] Instance exc_ret {M : Type → Type} `{!MRet M} : MRet (Exc M) :=
  fun A a => mret (M := M) (Normal a).

#[global] Instance exc_bind {M : Type → Type} `{!MBind M, !MRet M}
    : MBind (Exc M) :=
  fun A B k m =>
    mbind (M := M) (fun c => match c with
                             | Normal a => k a
                             | Throw e => mret (M := M) (Throw e)
                             end) m.

Definition throw {M : Type → Type} `{!MRet M} {A : Type} (e : error)
    : Exc M A :=
  mret (M := M) (Throw e).

(** Code that cannot throw, run among code that can. *)
Definition lift {M : Type → Type} `{!MBind M, !MRet M} {A : Type} (m : M A)
    : Exc M A :=
  mbind (M := M) (fun a => mret (M := M) (Normal a)) m.

End Completion.

(** ** The generator: [mulberry32] *)

Module Rng.

(** [seed += 0x6d2b79f5] on the captured variable. *)
Definition next (seed : Num.number) : Num.number :=
  Num.add seed (Num.Finite 0x6d2b79f5).

(** The value returned once [seed] has been advanced: every operation on [t]
    reads it through [ToInt32] or [ToUint32].  ([t + Math.imul(..)] adds two
    32-bit integers, which is exact.) *)
Definition out (seed : Num.number) : float :=
  let t := Num.integer seed in
  let t := Num.imul (Num.xor t (Num.ushr t 15)) (Num.or t 1) in
  let t := Num.xor t (t + Num.imul (Num.xor t (Num.ushr t 7)) (Num.or t 61))%Z in
  (Num.of_Z (Num.ushr (Num.xor t (Num.ushr t 14)) 0) / 4294967296)%float.

(** A computation that draws from one generator threads its captured
    variable [seed]. *)
Definition Rng (A : Type) : Type := Num.number → A * Num.number.

#[global] Instance rng_ret : MRet Rng := fun A a s => (a, s).

#[global] Instance rng_bind : MBind Rng :=
  fun A B k m s => let '(a, s') := m s in k a s'.

(** One call of the closure returned by [mulberry32(seed)]. *)
Definition call : Rng float := fun seed => (out (next seed), next seed).

(** [mulberry32(seed)]: the closure, as the first value of its captured
    variable and the code of a call. *)
Definition mulberry32 (seed : Num.number) : Num.number * Rng float :=
  (seed, call).

(** The value returned by call number [k] (from 0) of [mulberry32(seed)]. *)
Definition draw (seed : Num.number) (k : nat) : float :=
  out (Nat.iter (S k) next seed).

End Rng.

(** ** [ActivationCanvas]: parameters and forward pass *)

Module NeuralNet.

Import Completion.

Record layer : Type := Layer { W : list (list float); b : list float }.

(** [fullCounts = [inputVector.length, ...layers]]. *)
Definition fullCounts (layers : list Z) (inputVector : list float) : list Z :=
  Z.of_nat (length inputVector) :: layers.

(** [layers.reduce((s, v, i) => s + (i + 1) * v, inputVector.length * 131)].
    (A layer size [v] stands for the number nearest to it.) *)
Definition seed_of (layers : list Z) (inputVector : list float) : Num.number :=
  Num.reduce (fun s v i =>
                Num.add s (Num.mul (Num.Finite (Z.of_nat i + 1)) (Num.round v)))
             (Num.mul (Num.Finite (Z.of_nat (length inputVector)))
                      (Num.Finite 131))
             layers.

(** The body of the [weights] memo after [const rng = mulberry32(seed)],
    for any way of running the calls [rng()]. *)
Section Loop.

Context {M : Type → Type} `{!MBind M, !MRet M}.

(** The closure [rng]. *)
Variable rng : M float.

(** [Array.from({ length: n }, fn)]: the array is created first, which
    throws for a length above [2^32 - 1]; then [fn] is called for the indices
    [0 .. n - 1] in order. *)
Definition array_from {A : Type} (n : Z) (fn : nat → Exc M A) : Exc M (list A) :=
  if is_array_length n
  then mapM (M := Exc M) fn (seq 0 (Num.ToLength n))
  else throw RangeError.

(** [(rng() * 2 - 1) * scale]. *)
Definition entry (scale : float) : Exc M float :=
  r ← lift rng; mret ((r * 2 - 1) * scale)%float.

(** The body of the loop over [l]: one transition. *)
Definition transition (fullCounts : list Z) (l : nat) : Exc M layer :=
  let inN := default 0%Z (fullCounts !! l) in
  let outN := default 0%Z (fullCounts !! S l) in
  let scale := PrimFloat.sqrt (1 / Num.of_Z inN) in
  W ← array_from outN (fun _ => array_from inN (fun _ => entry scale));
  b ← array_from outN (fun _ => entry Num.tenth);
  mret (Layer W b).

(** [for (l = 0; l < fullCounts.length - 1; l++) arr.push({ W, b })]. *)
Definition transitions (fullCounts : list Z) : Exc M (list layer) :=
  mapM (M := Exc M) (transition fullCounts) (seq 0 (length fullCounts - 1)).

End Loop.

(** The parameters built on the generator [mulberry32(seed)]; the final state
    of the generator is dropped with the closure. *)
Definition generate (fullCounts : list Z) (seed : Num.number)
    : completion (list layer) :=
  let '(captured, rng) := Rng.mulberry32 seed in
  fst (transitions rng fullCounts captured).

(** The [weights] memo. *)
Definition weights (layers : list Z) (inputVector : list float)
    : completion (list layer) :=
  generate (fullCounts layers inputVector) (seed_of layers inputVector).

(** [dot], [matVecMul] and [applyActivation]. *)
Definition dot (a b : list float) : float :=
  Num.reduce (fun s v i => s + v * Num.at_ b i)%float 0%float a.

Definition matVecMul (W : list (list float)) (x : list float)
    (b : option (list float)) : list float :=
  imap (fun i row =>
          (dot row x + match b with Some b => Num.at_ b i | None => 0 end)%float)
       W.

Definition applyActivation (x : list float) (fn : float → float) : list float :=
  fn <$> x.

Section Forward.

(** [Math.tanh]. *)
Variable tanh : float → float.

(** The body of the loop over [l] in [allActivations]: reads [acts[l]] and
    [weights[l]], pushes the next activation vector. *)
Definition forward_step (weights : list layer) (acts : list (list float))
    (l : nat) : list (list float) :=
  let w := default (Layer [] []) (weights !! l) in
  let z := matVecMul (W w) (default [] (acts !! l)) (Some (b w)) in
  let a := applyActivation z tanh in
  acts ++ [a].

(** The [allActivations] memo, on values. *)
Definition allActivations (inputVector : list float) (weights : list layer)
    : list (list float) :=
  foldl (forward_step weights) [inputVector] (seq 0 (length weights)).

(** [output = allActivations[allActivations.length - 1]]. *)
Definition output (inputVector : list float) (weights : list layer)
    : list float :=
  let acts := allActivations inputVector weights in
  default [] (acts !! (length acts - 1)).

End Forward.

End NeuralNet.

(** ** Generators as closures on a heap

    [mulberry32(seed)] returns a closure over a variable of its own.  Here the
    captured variables of all closures live in one heap, and the [weights]
    memo allocates its generator there. *)

Module Closure.

Import Completion.

Abbreviation heap := (gmap positive Num.number).

Definition Heap (A : Type) : Type := heap → A * heap.

#[global] Instance heap_ret : MRet Heap := fun A a h => (a, h).

#[global] Instance heap_bind : MBind Heap :=
  fun A B k m h => let '(a, h') := m h in k a h'.

(** [mulberry32(seed)]: a new closure, named by the cell of its variable. *)
Definition mulberry32 (seed : Num.number) : Heap positive :=
  fun h => let r := fresh (dom h) in (r, <[r := seed]> h).

(** [rng()]. *)
Definition call (rng : positive) : Heap float :=
  fun h => let seed := Rng.next (default (Num.Finite 0) (h !! rng)) in
           (Rng.out seed, <[rng := seed]> h).

(** The parameters built on a generator of their own. *)
Definition generate (fullCounts : list Z) (seed : Num.number)
    : Heap (completion (list NeuralNet.layer)) :=
  mbind (M := Heap)
        (fun rng => NeuralNet.transitions (call rng) fullCounts)
        (mulberry32 seed).

(** The [weights] memo. *)
Definition weights (layers : list Z) (inputVector : list float)
    : Heap (completion (list NeuralNet.layer)) :=
  generate (NeuralNet.fullCounts layers inputVector)
           (NeuralNet.seed_of layers inputVector).

End Closure.

(** ** [Landing]: the winner *)

Module Landing.

(** The [layers] and [inputVector] props that [Landing] passes down. *)
Definition layers : list Z := [1; 6; 3; 5; 2]%Z.

Definition inputVector (id1 id2 : float) : list float := [id1; id2].

Section Winner.

(** [Math.exp]. *)
Variable exp : float → float.

Definition sigmoid (x : float) : float := (1 / (1 + exp (- x)))%float.

(** The [onResult] callback: the identifier handed to [setWinnerID]. *)
Definition onResult {ID : Type} (id1 id2 : ID) (vec : list float) : ID :=
  let left := sigmoid (Num.at_ vec 0) in
  let right := sigmoid (Num.at_ vec 1) in
  if (right <? left)%float then id1 else id2.

End Winner.

(** The binary64 numbers nearest to [e] and to [1/e], and the numbers at
    most one unit in the last place away from them. *)
Definition E : float := 0x1.5bf0a8b145769p+1%float.
Definition inv_E : float := 0x1.78b56362cef38p-2%float.

Definition near (c : float) : list float := [next_down c; c; next_up c].

(** An exponential that is known at 0, 1 and -1 only, where it returns the
    nearest binary64 number. *)
Definition exp_at_units (x : float) : float :=
  if (x =? 1)%float then E
  else if (x =? -1)%float then inv_E
  else if (x =? 0)%float then 1%float
  else nan.

End Landing.

(** ** The forward pass on a store of arrays

    [allActivations] builds its trace from arrays that are shared by
    reference.  Here arrays live in a store; [inputVector] is a reference into
    it, [slice] and [map] allocate, [push] writes.  The parameter list is only
    ever read and stays a value. *)

Module Store.

Import NeuralNet.

Definition loc : Type := positive.

Inductive object : Type :=
| Numbers (xs : list float)
| Arrays (ls : list loc).

Abbreviation store := (gmap loc object).

(** A step either yields a value and a new store, or stops on a read
    through [undefined] (a [TypeError]). *)
Definition Js (A : Type) : Type := store → option (A * store).

#[global] Instance js_ret : MRet Js := fun A a σ => Some (a, σ).

#[global] Instance js_bind : MBind Js :=
  fun A B k m σ =>
    match m σ with
    | Some (a, σ') => k a σ'
    | None => None
    end.

Definition alloc (o : object) : Js loc :=
  fun σ => let l := fresh (dom σ) in Some (l, <[l := o]> σ).

Definition read_numbers (l : loc) : Js (list float) :=
  fun σ => match σ !! l with
           | Some (Numbers xs) => Some (xs, σ)
           | _ => None
           end.

(** [acts[i]]. *)
Definition index (acts : loc) (i : nat) : Js loc :=
  fun σ => match σ !! acts with
           | Some (Arrays ls) => (fun l => (l, σ)) <$> ls !! i
           | _ => None
           end.

(** [acts.push(a)]. *)
Definition push (acts a : loc) : Js unit :=
  fun σ => match σ !! acts with
           | Some (Arrays ls) => Some (tt, <[acts := Arrays (ls ++ [a])]> σ)
           | _ => None
           end.

(** [x.slice()], [W.map(...)] against [x], and [x.map(fn)]. *)
Definition slice (x : loc) : Js loc :=
  xs ← read_numbers x; alloc (Numbers xs).

Definition matVecMul (W : list (list float)) (x : loc)
    (b : option (list float)) : Js loc :=
  xs ← read_numbers x; alloc (Numbers (NeuralNet.matVecMul W xs b)).

Definition applyActivation (x : loc) (fn : float → float) : Js loc :=
  xs ← read_numbers x; alloc (Numbers (NeuralNet.applyActivation xs fn)).

Fixpoint for_loop (body : nat → Js unit) (ks : list nat) : Js unit :=
  match ks with
  | [] => mret tt
  | k :: ks' => body k;; for_loop body ks'
  end.

Section Forward.

Variable tanh : float → float.

Definition forward_step (weights : list layer) (acts : loc) (l : nat)
    : Js unit :=
  let w := default (Layer [] []) (weights !! l) in
  x ← index acts l;
  z ← matVecMul (W w) x (Some (b w));
  a ← applyActivation z tanh;
  push acts a.

Definition allActivations (inputVector : loc) (weights : list layer)
    : Js loc :=
  x0 ← slice inputVector;
  acts ← alloc (Arrays [x0]);
  for_loop (forward_step weights acts) (seq 0 (length weights));;
  mret acts.

End Forward.

(** The trace an array of arrays denotes in a store. *)
Definition numbers_at (σ : store) (l : loc) : option (list float) :=
  match σ !! l with
  | Some (Numbers xs) => Some xs
  | _ => None
  end.

Definition trace_at (σ : store) (acts : loc) : option (list (list float)) :=
  match σ !! acts with
  | Some (Arrays ls) => mapM (numbers_at σ) ls
  | _ => None
  end.

(** Every listed array is an array of numbers with the listed contents. *)
Definition holds (σ : store) (ls : list loc) (xss : list (list float)) : Prop :=
  Forall2 (fun l xs => σ !! l = Some (Numbers xs)) ls xss.

End Store.

(** ** Outcomes

    None of [weights], [allActivations] and the [onResult] callback contains a
    [throw] or a validation guard.  The one way any of them can stop is the
    engine's own [RangeError], raised by [Array.from({ length: n })] when [n]
    exceeds [2^32 - 1].  [InvalidTopology] and [ShapeMismatch] are the error
    names the specification gives. *)

Module Outcome.

Abbreviation error := Completion.error.
Abbreviation InvalidTopology := Completion.InvalidTopology.
Abbreviation ShapeMismatch := Completion.ShapeMismatch.
Abbreviation RangeError := Completion.RangeError.
Abbreviation completion := Completion.completion.
Abbreviation Normal := Completion.Normal.
Abbreviation Throw := Completion.Throw.
Abbreviation is_array_length := Completion.is_array_length.

(** The lengths transition [l] asks for: [outN] for the matrix and the bias
    vector, [inN] once per row. *)
Definition transition_ok (fullCounts : list Z) (l : nat) : bool :=
  let inN := default 0%Z (fullCounts !! l) in
  let outN := default 0%Z (fullCounts !! S l) in
  is_array_length outN && ((outN <=? 0)%Z || is_array_length inN).

Definition generate (fullCounts : list Z) (seed : Num.number)
    : completion (list NeuralNet.layer) :=
  NeuralNet.generate fullCounts seed.

Definition evaluate (tanh : float → float) (weights : list NeuralNet.layer)
    (inputVector : list float) : completion (list (list float)) :=
  Normal (NeuralNet.allActivations tanh inputVector weights).

Definition decide {ID : Type} (exp : float → float) (finalLayer : list float)
    (candidateA candidateB : ID) : completion ID :=
  Normal (Landing.onResult exp candidateA candidateB finalLayer).

(** The validation the specification asks for. *)
Definition invalid_topology (topology : list Z) : Prop :=
  length topology < 2 ∨ ∃ n, n ∈ topology ∧ (n ≤ 0)%Z.

Definition input_mismatch (weights : list NeuralNet.layer)
    (inputVector : list float) : Prop :=
  ∃ w row, weights !! 0 = Some w ∧ NeuralNet.W w !! 0 = Some row
           ∧ length inputVector ≠ length row.

End Outcome.


(** ** The parameters by position in the stream

    The specification's reading of the generated parameters: the entry at a
    given position is computed from one numbered draw of [mulberry32(seed)]. *)

Module GenSpec.

Import NeuralNet.

Definition cols (T : list Z) (l : nat) : nat := Num.ToLength (default 0%Z (T !! l)).
Definition rows (T : list Z) (l : nat) : nat := Num.ToLength (default 0%Z (T !! S l)).

(** Draws taken by transition [l], and by all transitions before it. *)
Definition draws_of (T : list Z) (l : nat) : nat := rows T l * cols T l + rows T l.
Definition offset (T : list Z) (l : nat) : nat := sum_list (draws_of T <$> seq 0 l).

Definition scale (T : list Z) (l : nat) : float :=
  PrimFloat.sqrt (1 / Num.of_Z (default 0%Z (T !! l))).

Definition weight_entry (seed : Num.number) (T : list Z) (l r c : nat) : float :=
  ((Rng.draw seed (offset T l + r * cols T l + c) * 2 - 1) * scale T l)%float.

Definition bias_entry (seed : Num.number) (T : list Z) (l r : nat) : float :=
  ((Rng.draw seed (offset T l + rows T l * cols T l + r) * 2 - 1) * Num.tenth)%float.

Definition layer_at (seed : Num.number) (T : list Z) (l : nat) : layer :=
  Layer ((fun r => weight_entry seed T l r <$> seq 0 (cols T l)) <$> seq 0 (rows T l))
        (bias_entry seed T l <$> seq 0 (rows T l)).

(** [seed = base + Σ (index + 1) * layerSize], [base = input.length * 131]. *)
Definition seed_formula (inputLength : nat) (layers : list Z) : Z :=
  (Z.of_nat inputLength * 131
   + foldr Z.add 0 (imap (fun index layerSize => (Z.of_nat index + 1) * layerSize) layers))%Z.

(** Every product and every partial sum of the seed formula, taken from the
    left, is safe. *)
Fixpoint safe_from (index : nat) (sum : Z) (layers : list Z) : Prop :=
  match layers with
  | [] => True
  | layerSize :: rest =>
      Num.safe ((Z.of_nat index + 1) * layerSize)
      ∧ Num.safe (sum + (Z.of_nat index + 1) * layerSize)
      ∧ safe_from (S index) (sum + (Z.of_nat index + 1) * layerSize)%Z rest
  end.

Definition seed_exact (inputLength : nat) (layers : list Z) : Prop :=
  Num.safe (Z.of_nat inputLength * 131)
  ∧ safe_from 0 (Z.of_nat inputLength * 131)%Z layers.

End GenSpec.

(** ** The forward pass, one layer at a time *)

Module FwdSpec.

Import NeuralNet.

(** The dot product of two vectors, summed from the left. *)
Definition dot_product (a x : list float) : float :=
  foldl (fun s p => s + p.1 * p.2)%float 0%float (zip a x).

(** The activation vector that follows [x] through the layer [w]. *)
Definition next_activation (tanh : float → float) (w : layer) (x : list float)
    : list float :=
  applyActivation (matVecMul (W w) x (Some (b w))) tanh.

End FwdSpec.

(** ** Draw accounting *)

Module Draws.

Import Completion Rng NeuralNet GenSpec.

(** [m] takes [n] draws and returns [v s] when started in state [s]. *)
Definition uses {A : Type} (m : Rng A) (n : nat) (v : Num.number → A) : Prop :=
  ∀ s, m s = (v s, Nat.iter n next s).

(** The values of a loop whose body for [k] takes [n k] draws. *)
Fixpoint loop_values {A B : Type} (n : A → nat) (v : A → Num.number → B) (ks : list A)
    (s : Num.number) : list B :=
  match ks with
  | [] => []
  | k :: ks' => v k s :: loop_values n v ks' (Nat.iter (n k) next s)
  end.

(** The layer built by transition [l] when the generator is in state [s]. *)
Definition layer_from (T : list Z) (l : nat) (s : Num.number) : layer :=
  Layer ((fun r => (fun c =>
            ((out (Nat.iter (S (r * cols T l + c)) next s) * 2 - 1) * GenSpec.scale T l)%float)
            <$> seq 0 (cols T l)) <$> seq 0 (rows T l))
        ((fun r =>
            ((out (Nat.iter (S (rows T l * cols T l + r)) next s) * 2 - 1) * Num.tenth)%float)
            <$> seq 0 (rows T l)).

(** A computation on the heap of closures follows the computation on the
    variable of closure [r] alone. *)
Definition follows {A : Type} (r : positive) (mh : Closure.Heap A) (m : Rng A)
    : Prop :=
  ∀ (h : gmap positive Num.number) s, h !! r = Some s →
    mh h = ((m s).1, <[r := (m s).2]> h).

(** [m] throws [e], whatever the state of the generator. *)
Definition throws {A : Type} (m : Rng (completion A)) (e : error) : Prop :=
  ∀ s, (m s).1 = Throw e.

(** The number of parameters of a layer. *)
Definition parameters_of (lay : layer) : nat :=
  sum_list (length <$> W lay) + length (b lay).

End Draws.

(** ** [ActivationCanvas]: what the renderer reads *)

Module Render.

Import Completion NeuralNet.

Record column : Type := Column { x : float; ys : list float }.

(** [layoutLayers(layerCounts, width, height)]; the array of a column is
    created by [Array.from({ length: n }, ..)]. *)
Definition layoutLayers (layerCounts : list Z) (width height : float)
    : completion (list column) :=
  let L := length layerCounts in
  let xGap := (width / Num.of_Z (Z.of_nat L + 1))%float in
  mapM (M := completion)
       (fun l =>
          let n := default 0%Z (layerCounts !! l) in
          let x := (xGap * Num.of_Z (Z.of_nat l + 1))%float in
          let yGap := (height / Num.of_Z (n + 1))%float in
          ys ← (if is_array_length n
                then Normal ((fun i => (yGap * Num.of_Z (Z.of_nat i + 1))%float)
                             <$> seq 0 (Num.ToLength n))
                else Throw RangeError);
          mret (Column x ys))
       (seq 0 L).

(** [edgeStrength(l, iPrev, iNext)]: [None] is the [TypeError] of reading an
    index of [undefined]; a missing number reads as [NaN]. *)
Definition edgeStrength (weights : list layer) (allActivations : list (list float))
    (l iPrev iNext : nat) : option float :=
  wl ← weights !! l;
  row ← W wl !! iNext;
  acts ← allActivations !! l;
  Some (Num.at_ row iPrev * Num.at_ acts iPrev)%float.

End Render.

(** ** [Math.min], [Math.max] and the colours of the canvas *)

Module JsMath.

Definition is_neg_zero (x : float) : bool :=
  match classify x with NZero => true | _ => false end.

(** [Math.min(a, b)] and [Math.max(a, b)]: NaN if either argument is NaN, and
    [-0] counts as smaller than [+0]. *)
Definition min (a b : float) : float :=
  if is_nan a || is_nan b then nan
  else if (a <? b)%float then a
  else if (b <? a)%float then b
  else if is_neg_zero a then a else b.

Definition max (a b : float) : float :=
  if is_nan a || is_nan b then nan
  else if (a <? b)%float then b
  else if (b <? a)%float then a
  else if is_neg_zero a then b else a.

(** [Math.max(...xs)]: [-Infinity] for no argument. *)
Definition max_of (xs : list float) : float := foldl max neg_infinity xs.

End JsMath.

Module Paint.

(** The literal [1e-6]. *)
Definition millionth : float := 0x1.0c6f7a0b5ed8dp-20%float.

(** [normalizeColoring(x)]. *)
Definition normalizeColoring (x : list float) : list float :=
  let m := JsMath.max millionth (JsMath.max_of (abs <$> x)) in
  (fun v => v / m)%float <$> x.

(** [strengthToColor(s)]. *)
Definition strengthToColor (s : float) : string :=
  let v := JsMath.max (-1) (JsMath.min 1 s) in
  if (0 <=? v)%float then "#f59e0b"%string else "#3b82f6"%string.

End Paint.

(** ** Teams: [TeamPicker], [PredictedWinnerCard] and the state of [Landing]

    Team identifiers are integer-valued numbers. *)

Module Teams.

#[local] Open Scope string_scope.

Record Team : Type := { name : string; color : string; id : Z }.

(** The [TEAMS] table of [Landing.tsx]. *)
Definition TEAMS : list Team :=
  [ {| name := "Pacers"; color := "rgba(38, 0, 255, 1)"; id := 0 |};
    {| name := "OKC"; color := "rgba(255, 0, 0, 1)"; id := 1 |};
    {| name := "Rebels"; color := "rgba(21, 255, 0, 1)"; id := 2 |};
    {| name := "UIC"; color := "rgba(238, 255, 0, 1)"; id := 3 |};
    {| name := "Sun"; color := "rgba(128, 0, 0, 1)"; id := 4 |};
    {| name := "Sky"; color := "rgba(28, 72, 109, 1)"; id := 5 |};
    {| name := "Liberty"; color := "rgba(0, 183, 255, 1)"; id := 6 |};
    {| name := "Illinois"; color := "rgba(255, 255, 255, 1)"; id := 7 |};
    {| name := "DePaul"; color := "rgba(0, 247, 255, 1)"; id := 8 |};
    {| name := "Northwestern"; color := "rgb(0, 0, 0)"; id := 9 |};
    {| name := "Storm"; color := "rgba(223, 223, 223, 1)"; id := 10 |};
    {| name := "Mercury"; color := "rgba(35, 95, 0, 1)"; id := 11 |};
    {| name := "Titans"; color := "rgba(129, 52, 52, 1)"; id := 12 |};
    {| name := "Wings"; color := "rgba(59, 59, 59, 1)"; id := 13 |};
    {| name := "Knicks"; color := "rgba(40, 45, 110, 1)"; id := 14 |};
    {| name := "Bucks"; color := "rgba(119, 0, 255, 1)"; id := 15 |} ].

(** *** [String(n)] for an integer-valued number

    [Number::toString]: the digits are those of the shortest decimal number
    [s * 10^(n - k)], [s] of [k] digits, whose nearest binary64 number is the
    given one, and among these the closest; they are followed by zeros for
    [n <= 21] and written with an exponent above. *)

Definition decimal (n : Z) : string := NilZero.string_of_int (Z.to_int n).

Definition rounds_to (v x : Z) : bool :=
  match Num.round v with
  | Num.Finite y => (y =? x)%Z
  | _ => false
  end.

(** Of the two multiples of [u] around [x], the one to print, if any. *)
Definition closest (x u lo : Z) : option Z :=
  let hi := (lo + 1)%Z in
  match rounds_to (lo * u) x, rounds_to (hi * u) x with
  | true, true =>
      Some (if (x - lo * u <? hi * u - x)%Z then lo
            else if (hi * u - x <? x - lo * u)%Z then hi
            else if Z.even lo then lo else hi)
  | true, false => Some lo
  | false, true => Some hi
  | false, false => None
  end.

(** The first number of digits [k], [k + 1], ... that is enough for [x], a
    number of [d] digits. *)
Fixpoint shortest_from (x : Z) (d k fuel : nat) : option (Z * nat) :=
  match fuel with
  | 0 => None
  | S fuel' =>
      let u := (10 ^ Z.of_nat (d - k))%Z in
      match closest x u (x / u) with
      | Some s => Some (s, k)
      | None => shortest_from x d (S k) fuel'
      end
  end.

(** [s], [k] and [n] for a positive [x]. *)
Definition shortest (x : Z) : Z * nat * nat :=
  let d := String.length (decimal x) in
  if rounds_to (10 ^ Z.of_nat d) x then (1%Z, 1, S d)
  else match shortest_from x d 1 d with
       | Some (s, k) => (s, k, d)
       | None => (x, d, d)
       end.

Definition to_string (x : Z) : string :=
  let '(s, k, n) := shortest x in
  let digits := decimal s in
  if (n <=? 21)%nat
  then String.append digits (String.concat EmptyString (repeat "0" (n - k)))
  else
    let exponent := String.append "e+" (decimal (Z.of_nat (n - 1))) in
    match digits with
    | String c EmptyString => String c exponent
    | String c rest => String c (String.append "." (String.append rest exponent))
    | EmptyString => EmptyString
    end.

(** Below [2^53] every integer is a number of its own, and the shortest
    digits are all its digits.  (An integer stands for the number nearest to
    it.) *)
Definition String_ (n : Z) : string :=
  if (Z.abs n <? 2 ^ 53)%Z then decimal n
  else match Num.round n with
       | Num.Finite x =>
           if (x <? 0)%Z then String.append "-" (to_string (- x))
           else to_string x
       | Num.Infinite negative => if negative then "-Infinity" else "Infinity"
       | Num.NotANumber => "NaN"
       end.

(** *** [PredictedWinnerCard] (Output.tsx): which of its three cards is shown *)

Inductive card : Type :=
| NoTeams
| UnknownTeam (teamId : string)
| Winner (team : Team).

Definition PredictedWinnerCard (teams : list Team) (teamId : Z) : card :=
  let team := List.find (fun t => String.eqb (String_ (id t)) (String_ teamId)) teams in
  if (length teams =? 0)%nat then NoTeams
  else match team with
       | None => UnknownTeam (String_ teamId)
       | Some t => Winner t
       end.

(** *** [TeamPicker]: the two selected names, [undefined] as [None] *)

Record picker : Type := Picker { teamAName : option string; teamBName : option string }.

(** [teams.find((t) => t.name === selected)]. *)
Definition find_named (teams : list Team) (selected : option string) : option Team :=
  List.find (fun t => match selected with
                      | Some s => String.eqb (name t) s
                      | None => false
                      end) teams.

Definition canActivate (teams : list Team) (disabled : bool) (st : picker) : bool :=
  let teamA := find_named teams (teamAName st) in
  let teamB := find_named teams (teamBName st) in
  let bothSelected := bool_decide (is_Some teamA) && bool_decide (is_Some teamB) in
  let sameTeam := match teamA, teamB with
                  | Some a, Some c => String.eqb (name a) (name c)
                  | _, _ => false
                  end in
  bothSelected && negb sameTeam && negb disabled.

(** [onSubmit]: the pair handed to [onActivate], if it is called. *)
Definition onSubmit (teams : list Team) (disabled : bool) (st : picker)
    : option (Team * Team) :=
  if canActivate teams disabled st
  then match find_named teams (teamAName st), find_named teams (teamBName st) with
       | Some a, Some c => Some (a, c)
       | _, _ => None
       end
  else None.

Definition handleSwap (disabled : bool) (st : picker) : picker :=
  if disabled then st else Picker (teamBName st) (teamAName st).

(** The effect run when [teams] is set: defaults for names not chosen yet. *)
Definition defaults (teams : list Team) (st : picker) : picker :=
  if (length teams =? 0)%nat then st
  else
    let first := name <$> head teams in
    let other := match teamAName st with Some a => Some a | None => first end in
    Picker (match teamAName st with Some a => Some a | None => first end)
           (match teamBName st with
            | Some c => Some c
            | None =>
                name <$> List.find (fun t => negb (bool_decide (Some (name t) = other)))
                                   teams
            end).

(** *** [Landing]: the identifiers it keeps

    [running] holds the identifiers captured by a run of the canvas that has
    been started and has not reported yet: the callback that reports was
    created when the run was started, with the identifiers of that render. *)

Record landing : Type :=
  { id1 : Z; id2 : Z; winnerID : Z; running : option (Z * Z) }.

Definition initial : landing :=
  {| id1 := 0; id2 := 1; winnerID := 0; running := None |}.

(** [onActivate={(a, b) => { setID1(a.id); setID2(b.id); }}]. *)
Definition pick (a c : Team) (st : landing) : landing :=
  {| id1 := id a; id2 := id c; winnerID := winnerID st; running := running st |}.

(** The canvas's [onActivate]: nothing while a run is under way. *)
Definition activate (st : landing) : landing :=
  match running st with
  | Some _ => st
  | None => {| id1 := id1 st; id2 := id2 st; winnerID := winnerID st;
               running := Some (id1 st, id2 st) |}
  end.

(** The last timer of a run: [onResult(output)] with the captured
    identifiers. *)
Definition result (exp : float → float) (vec : list float) (st : landing)
    : landing :=
  match running st with
  | Some (i1, i2) =>
      {| id1 := id1 st; id2 := id2 st;
         winnerID := Landing.onResult exp i1 i2 vec; running := None |}
  | None => st
  end.

(** One event: the picker activates two teams, the canvas is started, or a
    run reports its final vector. *)
Inductive step (exp : float → float) : landing → landing → Prop :=
| step_pick (pk : picker) (a c : Team) (st : landing) :
    onSubmit TEAMS false pk = Some (a, c) → step exp st (pick a c st)
| step_activate (st : landing) :
    step exp st (activate st)
| step_result (vec : list float) (st : landing) :
    step exp st (result exp vec st).

(** The identifiers kept by [Landing] or captured by a run are identifiers of
    teams of the table, and the two selected ones differ. *)
Definition known_id (n : Z) : Prop := ∃ t, t ∈ TEAMS ∧ id t = n.

Definition known (st : landing) : Prop :=
  known_id (id1 st) ∧ known_id (id2 st) ∧ known_id (winnerID st)
  ∧ id1 st ≠ id2 st
  ∧ ∀ i1 i2, running st = Some (i1, i2) → known_id i1 ∧ known_id i2.

End Teams.

(** ** [NeuralNetworkEditor]: editing the topology

    The [layers] state of the editor and the updates its buttons make to it.
    Layer sizes are integer-valued numbers. *)

Module Editor.

#[local] Open Scope Z_scope.

(** [a[i] ?? d] for an integer index, which may be negative. *)
Definition at_or (a : list Z) (i : Z) (d : Z) : Z :=
  if i <? 0 then d else default d (a !! Z.to_nat i).

(** The position [splice] starts at: a negative [start] counts from the end,
    and the result is clamped to the array. *)
Definition splice_start (a : list Z) (start : Z) : nat :=
  let len := Z.of_nat (length a) in
  Z.to_nat (if start <? 0 then Z.max (len + start) 0 else Z.min start len).

(** [a.splice(start, 0, v)] and [a.splice(start, 1)], as the array left. *)
Definition splice_insert (a : list Z) (start : Z) (v : Z) : list Z :=
  let k := splice_start a start in
  take k a ++ v :: drop k a.

Definition splice_remove (a : list Z) (start : Z) : list Z :=
  let k := splice_start a start in
  take k a ++ drop (S k) a.

(** [Math.round(s / 2)] for an integer [s]: a half is rounded up. *)
Definition round_half (s : Z) : Z := (s + 1) / 2.

Definition addLayer (prev : list Z) : list Z :=
  let insertIdx := Z.of_nat (length prev) - 1 in
  let left := at_or prev (insertIdx - 1) 3 in
  let right := at_or prev insertIdx 3 in
  let newSize := Z.max 1 (round_half (left + right)) in
  splice_insert prev insertIdx newSize.

Definition removeLayer (prev : list Z) : list Z :=
  if (length prev <=? 2)%nat then prev
  else splice_remove prev (Z.of_nat (length prev) - 2).

(** [addNeuron(layerIdx)] and [removeNeuron(layerIdx)].  The buttons exist
    per layer, so [layerIdx] names a layer; [None] stands for an index that
    names none, where the assignment would extend the array with NaN. *)
Definition addNeuron (layerIdx : nat) (prev : list Z) : option (list Z) :=
  n ← prev !! layerIdx; Some (<[layerIdx := n + 1]> prev).

Definition removeNeuron (layerIdx : nat) (prev : list Z) : option (list Z) :=
  n ← prev !! layerIdx;
  Some (if n <=? 1 then prev else <[layerIdx := n - 1]> prev).

(** The edits a user can make, and a topology as the editor means it. *)
Inductive edit : Type :=
| AddLayer
| RemoveLayer
| AddNeuron (layerIdx : nat)
| RemoveNeuron (layerIdx : nat).

Definition apply_edit (e : edit) (prev : list Z) : option (list Z) :=
  match e with
  | AddLayer => Some (addLayer prev)
  | RemoveLayer => Some (removeLayer prev)
  | AddNeuron i => addNeuron i prev
  | RemoveNeuron i => removeNeuron i prev
  end.

Definition well_formed (layers : list Z) : Prop :=
  (2 ≤ length layers)%nat ∧ Forall (fun n => 1 ≤ n) layers.

End Editor.

(** * Properties *)

(** ** Draw accounting *)

Section DrawLemmas.

Import Completion Rng NeuralNet GenSpec Draws.

Lemma uses_mapM {A B : Type} (fn : A → Exc Rng B) n v ks :
  (∀ k, k ∈ ks → uses (fn k) (n k) (fun s => Normal (v k s))) →
  uses (mapM (M := Exc Rng) fn ks) (sum_list (n <$> ks))
       (fun s => Normal (loop_values n v ks s)).
Proof.
  intros Hfn. induction ks as [|k ks IH]; intros s; [done|].
  cbn [mapM loop_values fmap list_fmap sum_list sum_list_with].
  unfold mbind at 1. unfold exc_bind, mbind, rng_bind.
  rewrite (Hfn k) by left.
  rewrite IH by (intros k' Hk'; apply Hfn; by right).
  unfold mret, exc_ret, mret, rng_ret.
  f_equal. by rewrite (Nat.add_comm (n k)), Nat.iter_add.
Qed.

Lemma loop_values_lookup {A B : Type} (n : A → nat) (v : A → Num.number → B)
    ks s j :
  loop_values n v ks s !! j
  = (fun k => v k (Nat.iter (sum_list (n <$> take j ks)) next s)) <$> ks !! j.
Proof.
  revert s j. induction ks as [|k ks IH]; intros s [|j]; try done.
  cbn [loop_values lookup list_lookup take fmap list_fmap sum_list sum_list_with].
  rewrite IH. destruct (ks !! j) as [k'|]; [|done].
  cbn [fmap option_fmap option_map].
  by rewrite (Nat.add_comm (n k)), Nat.iter_add.
Qed.

Lemma loop_values_seq {B : Type} (n : nat → nat) (v : nat → Num.number → B)
    len s :
  loop_values n v (seq 0 len) s
  = (fun j => v j (Nat.iter (sum_list (n <$> seq 0 j)) next s)) <$> seq 0 len.
Proof.
  apply list_eq; intros j. rewrite loop_values_lookup, list_lookup_fmap.
  destruct (decide (j < len)) as [Hj|Hj].
  - rewrite lookup_seq_lt by done. cbn [fmap option_fmap option_map].
    by rewrite take_seq, Nat.min_l by lia.
  - by rewrite lookup_seq_ge by lia.
Qed.

(** A loop stops at the first body that throws. *)
Lemma mapM_outcome {A B : Type} (fn : A → Exc Rng B) (ok : A → bool) n v ks s :
  (∀ k, k ∈ ks → if ok k then uses (fn k) (n k) (fun s => Normal (v k s))
                 else throws (fn k) RangeError) →
  (mapM (M := Exc Rng) fn ks s).1
  = if forallb ok ks then Normal (loop_values n v ks s) else Throw RangeError.
Proof.
  revert s. induction ks as [|k ks IH]; intros s Hfn; [done|].
  cbn [mapM loop_values forallb].
  unfold mbind at 1. unfold exc_bind, mbind, rng_bind.
  pose proof (Hfn k ltac:(left)) as Hk.
  destruct (ok k).
  - rewrite Hk. cbn [andb].
    specialize (IH (Nat.iter (n k) next s)
                  (fun k' Hk' => Hfn k' ltac:(by right))).
    destruct (mapM fn ks (Nat.iter (n k) next s)) as [c s'].
    cbn [fst] in IH. rewrite IH. by destruct (forallb ok ks).
  - specialize (Hk s). destruct (fn k s) as [c s']. cbn [fst] in Hk.
    by rewrite Hk.
Qed.

Lemma iter_next_add a c s :
  Nat.iter a next (Nat.iter c next s) = Nat.iter (c + a) next s.
Proof. by rewrite (Nat.add_comm c a), Nat.iter_add. Qed.

Lemma sum_list_const (c a j : nat) : sum_list ((fun _ => c) <$> seq a j) = j * c.
Proof. revert a. induction j as [|j IH]; intros a; [done|]. cbn. rewrite IH. lia. Qed.

Lemma uses_array_from {A : Type} (n : Z) (fn : nat → Exc Rng A) c v :
  is_array_length n = true →
  (∀ k, k < Num.ToLength n → uses (fn k) c (fun s => Normal (v k s))) →
  uses (array_from n fn) (Num.ToLength n * c)
       (fun s => Normal ((fun j => v j (Nat.iter (j * c) next s))
                         <$> seq 0 (Num.ToLength n))).
Proof.
  intros Hn Hfn s. unfold array_from. rewrite Hn.
  rewrite (uses_mapM fn (fun _ => c) v).
  - rewrite loop_values_seq, sum_list_const. do 2 f_equal.
    apply list_fmap_ext. intros _ j _. by rewrite sum_list_const.
  - intros k Hk%elem_of_seq. apply Hfn. lia.
Qed.

Lemma throws_bind {A B : Type} (m : Exc Rng A) (k : A → Exc Rng B) e :
  throws m e → throws (m ≫= k) e.
Proof.
  intros Hm s. unfold mbind, exc_bind, mbind, rng_bind.
  specialize (Hm s). destruct (m s) as [c s']. cbn [fst] in Hm. by rewrite Hm.
Qed.

Lemma throws_array_from {A : Type} (n : Z) (fn : nat → Exc Rng A) :
  is_array_length n = false ∨ ((0 < n)%Z ∧ ∀ k, throws (fn k) RangeError) →
  throws (array_from n fn) RangeError.
Proof.
  intros Hn s. unfold array_from.
  destruct (is_array_length n); [|done].
  destruct Hn as [|[Hpos Hfn]]; [done|].
  unfold Num.ToLength.
  destruct (Z.to_nat n) as [|len] eqn:Hlen; [lia|].
  cbn [seq mapM]. by apply throws_bind.
Qed.

Lemma uses_entry scale :
  uses (entry call scale) 1
       (fun s => Normal ((out (next s) * 2 - 1) * scale)%float).
Proof. by intros s. Qed.

Lemma uses_transition T l :
  Outcome.transition_ok T l = true →
  uses (transition call T l) (draws_of T l)
       (fun s => Normal (layer_from T l s)).
Proof.
  intros [Hout Hin]%andb_true_iff s. unfold transition.
  pose proof (uses_array_from (default 0%Z (T !! S l))
    (fun _ => array_from (default 0%Z (T !! l))
                (fun _ => entry call (GenSpec.scale T l)))
    (Num.ToLength (default 0%Z (T !! l)) * 1)
    (fun _ s => (fun j => ((out (next (Nat.iter (j * 1) next s)) * 2 - 1)
                           * GenSpec.scale T l)%float)
                <$> seq 0 (Num.ToLength (default 0%Z (T !! l)))) Hout) as HW.
  pose proof (uses_array_from (default 0%Z (T !! S l)) _ _ _ Hout
    (fun k (_ : k < _) => uses_entry Num.tenth)) as Hb.
  unfold mbind at 1. unfold exc_bind, mbind, rng_bind.
  fold (GenSpec.scale T l). rewrite HW.
  2:{ intros k Hk.
      apply (uses_array_from _ _ 1
               (fun _ s => ((out (next s) * 2 - 1) * GenSpec.scale T l)%float));
        [|intros; apply uses_entry].
      apply orb_true_iff in Hin as [Hle%Z.leb_le|]; [|done].
      unfold Num.ToLength in Hk. lia. }
  rewrite Hb. unfold mret, exc_ret, mret, rng_ret.
  fold (rows T l) (cols T l).
  unfold layer_from, draws_of. f_equal.
  - do 2 f_equal.
    + apply list_fmap_ext. intros _ r _. apply list_fmap_ext. intros _ c _.
      rewrite iter_next_add.
      by replace (r * (cols T l * 1) + c * 1) with (r * cols T l + c) by lia.
    + apply list_fmap_ext. intros _ r _.
      rewrite iter_next_add.
      by replace (rows T l * (cols T l * 1) + r * 1)
        with (rows T l * cols T l + r) by lia.
  - rewrite iter_next_add. f_equal. lia.
Qed.

Lemma throws_transition T l :
  Outcome.transition_ok T l = false → throws (transition call T l) RangeError.
Proof.
  intros Hok. unfold transition. apply throws_bind, throws_array_from.
  apply andb_false_iff in Hok as [Hout|Hin]; [by left|].
  apply orb_false_iff in Hin as [Hpos%Z.leb_gt Hin].
  destruct (is_array_length (default 0%Z (T !! S l))) eqn:Hout; [|by left].
  right. split; [lia|]. intros _. apply throws_array_from. by left.
Qed.

Lemma layer_from_offset T l seed :
  layer_from T l (Nat.iter (offset T l) next seed) = layer_at seed T l.
Proof.
  unfold layer_from, layer_at, weight_entry, bias_entry, draw. f_equal.
  - apply list_fmap_ext. intros _ r _. apply list_fmap_ext. intros _ c _.
    rewrite iter_next_add.
    by replace (offset T l + S (r * cols T l + c))
      with (S (offset T l + r * cols T l + c)) by lia.
  - apply list_fmap_ext. intros _ r _.
    rewrite iter_next_add.
    by replace (offset T l + S (rows T l * cols T l + r))
      with (S (offset T l + rows T l * cols T l + r)) by lia.
Qed.

Lemma layers_from_offset T seed len :
  loop_values (draws_of T) (layer_from T) (seq 0 len) seed
  = layer_at seed T <$> seq 0 len.
Proof.
  rewrite loop_values_seq. apply list_fmap_ext. intros _ l _.
  apply layer_from_offset.
Qed.

(** Generation throws exactly when one of its arrays is too long. *)
Lemma generate_outcome T seed :
  generate T seed
  = if forallb (Outcome.transition_ok T) (seq 0 (length T - 1))
    then Normal (layer_at seed T <$> seq 0 (length T - 1))
    else Throw RangeError.
Proof.
  unfold generate, mulberry32, transitions.
  rewrite (mapM_outcome _ (Outcome.transition_ok T) (draws_of T) (layer_from T)).
  - by rewrite layers_from_offset.
  - intros l _. destruct (Outcome.transition_ok T l) eqn:Hok.
    + by apply uses_transition.
    + by apply throws_transition.
Qed.

Lemma sizes_ok (T : list Z) :
  Forall (fun n => (n < 2 ^ 32)%Z) T →
  ∀ l, Outcome.transition_ok T l = true.
Proof.
  intros Hsizes l.
  assert (∀ i, is_array_length (default 0%Z (T !! i)) = true) as Hlen.
  { intros i. unfold is_array_length. apply Z.ltb_lt.
    destruct (T !! i) as [n|] eqn:Hn; [|done].
    by apply (Forall_lookup_1 _ _ _ _ Hsizes Hn). }
  unfold Outcome.transition_ok. by rewrite !Hlen, orb_true_r.
Qed.

Lemma generate_layers T seed :
  Forall (fun n => (n < 2 ^ 32)%Z) T →
  generate T seed = Normal (layer_at seed T <$> seq 0 (length T - 1)).
Proof.
  intros Hsizes. rewrite generate_outcome.
  replace (forallb _ _) with true; [done|].
  symmetry. apply forallb_forall. intros l _. by apply sizes_ok.
Qed.

End DrawLemmas.

(** ** Rounding

    An integer below [2^53] in magnitude is a binary64 number: rounding
    leaves it as it is. *)

Section Exactness.

#[local] Open Scope Z_scope.

Lemma digits2_size (p : positive) : digits2_pos p = Pos.size p.
Proof. induction p as [p IH|p IH|]; cbn; congruence. Qed.

Lemma digits2_bound (p : positive) : Z.pos p < 2 ^ 53 → Z.pos (digits2_pos p) ≤ 53.
Proof.
  intros Hp. rewrite digits2_size.
  pose proof (Pos.size_le p) as Hle.
  apply Pos2Z.pos_le_pos in Hle. rewrite Pos2Z.inj_pow, (Pos2Z.inj_xO p) in Hle.
  destruct (Z_le_gt_dec (Z.pos (Pos.size p)) 53) as [Hd|Hd]; [done|].
  assert (2 ^ 54 ≤ 2 ^ Z.pos (Pos.size p)) by (apply Z.pow_le_mono_r; lia).
  lia.
Qed.

Lemma digits2_iter (p n : positive) :
  digits2_pos (Pos.iter xO p n) = (digits2_pos p + n)%positive.
Proof.
  induction n as [|n IH] using Pos.peano_ind.
  - cbn. lia.
  - rewrite Pos.iter_succ. cbn. rewrite IH. lia.
Qed.

Lemma round_aux_exact (s : bool) (m : positive) (e : Z) :
  Z.pos (digits2_pos m) = 53 → -52 ≤ e ≤ 0 →
  binary_round_aux prec emax s (Z.pos m) e loc_Exact = S754_finite s m e.
Proof.
  intros Hm He. unfold binary_round_aux, shr_fexp. cbn [Zdigits2].
  rewrite Hm. unfold fexp, SpecFloat.emin, prec, emax.
  replace (Z.max (53 + e - 53) (3 - 1024 - 53) - e) with 0 by lia.
  cbn [shr shr_record_of_loc shr_m loc_of_shr_record round_nearest_even Zdigits2].
  rewrite Hm.
  replace (Z.max (53 + e - 53) (3 - 1024 - 53) - e) with 0 by lia.
  cbn [shr shr_record_of_loc shr_m].
  replace (e <=? 1024 - 53) with true by (symmetry; apply Z.leb_le; lia).
  done.
Qed.

Lemma binary_round_exact (s : bool) (p : positive) :
  Z.pos p < 2 ^ 53 →
  ∃ m e, binary_round prec emax s p 0 = S754_finite s m e
         ∧ e ≤ 0 ∧ Z.pos m = Z.pos p * 2 ^ (- e).
Proof.
  intros Hp. pose proof (digits2_bound p Hp) as Hd.
  unfold binary_round, shl_align, fexp, SpecFloat.emin, prec, emax.
  match goal with
  | |- context [match ?x with Z.neg _ => _ | _ => _ end] =>
      destruct x as [|k|k] eqn:Hk
  end; [| lia |].
  - exists p, 0. split; [apply round_aux_exact; lia|]. lia.
  - exists (Pos.iter xO p k), (Z.neg k).
    split; [|split; [lia|]].
    + match goal with
      | |- context [binary_round_aux _ _ _ _ ?e _] =>
          replace e with (Z.neg k) by lia
      end.
      apply round_aux_exact; [|lia].
      rewrite digits2_iter. lia.
    + change (Pos.iter xO p k) with (shift_pos k p).
      rewrite shift_pos_correct, Z.pow_pos_fold. cbn [Z.opp].
      apply Z.mul_comm.
Qed.

Lemma round_exact (z : Z) : Num.safe z → Num.round z = Num.Finite z.
Proof.
  unfold Num.safe. intros Hz. unfold Num.round, binary_normalize.
  destruct z as [|p|p]; [done|..].
  - destruct (binary_round_exact false p Hz) as (m & e & -> & He & Hm).
    destruct (Z.leb_spec 0 e) as [H0|H0].
    + replace e with 0 in * by lia. f_equal. cbn in Hm. lia.
    + f_equal. rewrite Hm. apply Z.div_mul. apply Z.pow_nonzero; lia.
  - destruct (binary_round_exact true p Hz) as (m & e & -> & He & Hm).
    destruct (Z.leb_spec 0 e) as [H0|H0].
    + replace e with 0 in * by lia. f_equal. cbn in Hm. lia.
    + f_equal. rewrite Hm, Z.div_mul by (apply Z.pow_nonzero; lia). done.
Qed.

End Exactness.

(** ** The embedding on small inputs *)

Example conversions_wrap :
  Num.ToInt32 (2 ^ 31) = (- 2 ^ 31)%Z ∧ Num.ToUint32 (-1) = (2 ^ 32 - 1)%Z
  ∧ Num.imul 65536 65536 = 0%Z ∧ Num.imul (-5) 12 = (-60)%Z
  ∧ Num.xor (-1) 5 = (-6)%Z ∧ Num.ushr (-1) 28 = 15%Z.
Proof. by vm_compute. Qed.

Example rounding :
  Num.round (2 ^ 53 + 1) = Num.Finite (2 ^ 53)
  ∧ Num.round (2 ^ 53 + 3) = Num.Finite (2 ^ 53 + 4)
  ∧ Num.round (2 ^ 1024 - 2 ^ 970 - 1) = Num.Finite (2 ^ 1024 - 2 ^ 971)
  ∧ Num.round (2 ^ 1024 - 2 ^ 970) = Num.Infinite false
  ∧ Num.round (- 2 ^ 1024) = Num.Infinite true
  ∧ Num.add (Num.Infinite false) (Num.Infinite true) = Num.NotANumber.
Proof. by vm_compute. Qed.

Example next_is_rounded :
  Rng.next (Num.Finite 297) = Num.Finite (297 + 0x6d2b79f5)
  ∧ Rng.next (Num.Finite (2 ^ 53)) = Num.Finite (2 ^ 53 + 0x6d2b79f5 - 1)
  ∧ Rng.next (Num.Finite (2 ^ 100)) = Num.Finite (2 ^ 100)
  ∧ Rng.next (Num.Infinite true) = Num.Infinite true
  ∧ Rng.next Num.NotANumber = Num.NotANumber.
Proof. by vm_compute. Qed.

Example mulberry32_first_draw :
  Rng.draw (Num.Finite 0) 0 = (Num.of_Z 1144304738 / 4294967296)%float
  ∧ Rng.draw (Num.Finite 1) 0 = (Num.of_Z 2693262067 / 4294967296)%float
  ∧ Rng.draw (Num.Infinite false) 0 = 0%float
  ∧ Rng.draw (Num.Infinite false) 1 = 0%float.
Proof. by vm_compute. Qed.

Example dot_reads_past_the_end :
  NeuralNet.dot [1; 2; 3]%float [4; 5; 6]%float = 32%float
  ∧ NeuralNet.dot [1; 2]%float [4; 5; 6]%float = 14%float
  ∧ NeuralNet.dot [1; 2; 3]%float [4; 5]%float = nan.
Proof. by vm_compute. Qed.

Example landing_trace_lengths :
  ∃ ws, NeuralNet.weights Landing.layers (Landing.inputVector 0 1)
        = Completion.Normal ws
    ∧ length <$> NeuralNet.allActivations (fun v => v) (Landing.inputVector 0 1) ws
      = [2; 1; 6; 3; 5; 2].
Proof. eexists. split; [by vm_compute|]. by vm_compute. Qed.

Example large_size_is_refused :
  Outcome.generate [2; 2 ^ 32]%Z (Num.Finite 0) = Outcome.Throw Outcome.RangeError
  ∧ NeuralNet.generate [2 ^ 32; 1]%Z (Num.Finite 0)
    = Completion.Throw Completion.RangeError
  ∧ ∃ b, NeuralNet.generate [2 ^ 32; -1; 2]%Z (Num.Finite 0)
         = Completion.Normal [NeuralNet.Layer [] []; NeuralNet.Layer [[]; []] b].
Proof. split; [by vm_compute|]. split; [by vm_compute|]. eexists. by vm_compute. Qed.

Example number_to_string :
  Teams.String_ 15 = "15"%string ∧ Teams.String_ (-7) = "-7"%string
  ∧ Teams.String_ (2 ^ 53) = "9007199254740992"%string
  ∧ Teams.String_ (2 ^ 64) = "18446744073709552000"%string
  ∧ Teams.String_ (10 ^ 21) = "1e+21"%string
  ∧ Teams.String_ (- 2 ^ 70) = "-1.1805916207174113e+21"%string
  ∧ Teams.String_ (2 ^ 53 + 1) = "9007199254740992"%string
  ∧ Teams.String_ (2 ^ 1024) = "Infinity"%string
  ∧ Teams.to_string 15 = "15"%string
  ∧ Teams.to_string (2 ^ 53 - 1) = "9007199254740991"%string.
Proof. by vm_compute. Qed.

(** ** Weight generation *)

Section Generation.

Import Completion Rng NeuralNet GenSpec.

Lemma lookup_seq_fmap {A : Type} (f : nat → A) n i :
  i < n → (f <$> seq 0 n) !! i = Some (f i).
Proof. intros Hi. by rewrite list_lookup_fmap, lookup_seq_lt. Qed.




(** ** The seed *)

#[local] Ltac seed_is_exact :=
  unfold GenSpec.seed_exact; cbn; unfold Num.safe; lia.

Lemma reduce_from_exact (layers : list Z) (i : nat) (acc : Z) :
  safe_from i acc layers →
  Num.reduce_from
    (fun s v i => Num.add s (Num.mul (Num.Finite (Z.of_nat i + 1)) (Num.round v)))
    i (Num.Finite acc) layers
  = Num.Finite
      (acc + foldr Z.add 0 (imap (fun j v => (Z.of_nat (i + j) + 1) * v) layers))%Z.
Proof.
  revert i acc. induction layers as [|v layers IH]; intros i acc Hsafe.
  - cbn. f_equal. lia.
  - destruct Hsafe as (Hprod & Hsum & Hrest).
    cbn [Num.reduce_from imap foldr].
    assert (Num.safe v) as Hv by (unfold Num.safe in *; nia).
    replace (Num.add (Num.Finite acc)
               (Num.mul (Num.Finite (Z.of_nat i + 1)) (Num.round v)))
      with (Num.Finite (acc + (Z.of_nat i + 1) * v))
      by (rewrite (round_exact _ Hv); unfold Num.mul, Num.add;
          by rewrite (round_exact _ Hprod), (round_exact _ Hsum)).
    rewrite (IH _ _ Hrest).
    rewrite Nat.add_0_r. f_equal.
    rewrite (imap_ext _ ((fun j v => (Z.of_nat (i + j) + 1) * v)%Z ∘ S) layers).
    + lia.
    + intros j x _. cbn. by replace (S (i + j)) with (i + S j) by lia.
Qed.

Lemma seed_of_exact (layers : list Z) (inputVector : list float) :
  seed_exact (length inputVector) layers →
  seed_of layers inputVector
  = Num.Finite (seed_formula (length inputVector) layers).
Proof.
  intros [Hbase Hsafe]. unfold seed_of, seed_formula, Num.reduce.
  replace (Num.mul (Num.Finite (Z.of_nat (length inputVector))) (Num.Finite 131))
    with (Num.Finite (Z.of_nat (length inputVector) * 131))
    by (unfold Num.mul; by rewrite (round_exact _ Hbase)).
  by rewrite (reduce_from_exact _ _ _ Hsafe).
Qed.

(** C3. As long as every product and every partial sum of the formula stays
    below [2^53] in magnitude, the seed is [input.length * 131] plus the sum
    over the layer list of [(index + 1) * layerSize], index from 0; for an
    input of length 2 and layers [6; 3; 5; 2] it is 297. *)
Theorem seed_of_formula (layers : list Z) (inputVector : list float) :
  (seed_exact (length inputVector) layers →
   seed_of layers inputVector
   = Num.Finite (seed_formula (length inputVector) layers))
  ∧ ∀ id1 id2 : float, seed_of [6; 3; 5; 2]%Z [id1; id2] = Num.Finite 297.
Proof.
  split; [apply seed_of_exact|].
  intros id1 id2. rewrite seed_of_exact; [done|].
  seed_is_exact.
Qed.

Lemma seed_of_formula_witness :
  seed_of [1; 6; 3; 5; 2]%Z [0; 1]%float = Num.Finite 314.
Proof.
  apply (proj1 (seed_of_formula [1; 6; 3; 5; 2]%Z [0; 1]%float)).
  seed_is_exact.
Defined.

(** C3, as the specification has it, fails: the additions are those of
    binary64 numbers.  For the layers [-2^53; -200] and an input of length 1
    the last sum is rounded to an even neighbour, and for sums that leave the
    range of the numbers the seed is not an integer at all. *)
Lemma seed_is_rounded :
  seed_formula 1 [- 2 ^ 53; -200]%Z = (-9007199254741261)%Z
  ∧ ∀ id : float,
      seed_of [- 2 ^ 53; -200]%Z [id] = Num.Finite (-9007199254741260)
      ∧ seed_of [- 2 ^ 53; -200]%Z [id]
        ≠ Num.Finite (seed_formula (length [id]) [- 2 ^ 53; -200]%Z)
      ∧ seed_of [- 2 ^ 1023; - 2 ^ 1023]%Z [id] = Num.Infinite true.
Proof. split; [done|]. intros id. by vm_compute. Qed.

Lemma seed_of_length (layers : list Z) (x y : list float) :
  length x = length y → seed_of layers x = seed_of layers y.
Proof. unfold seed_of. by intros ->. Qed.

Lemma weights_length_only (layers : list Z) (x y : list float) :
  length x = length y → weights layers x = weights layers y.
Proof.
  intros Hxy. unfold weights, fullCounts.
  by rewrite (seed_of_length layers x y Hxy), Hxy.
Qed.



(** C9. The generated parameters depend on the input vector through its
    length only: two input vectors of equal length give, for the same layer
    sizes, the same seed and the same weight matrices and bias vectors. *)
Theorem weights_ignore_values (layers : list Z) (x y : list float) :
  length x = length y →
  seed_of layers x = seed_of layers y ∧ weights layers x = weights layers y.
Proof.
  intros Hxy. split; [by apply seed_of_length | by apply weights_length_only].
Qed.

Lemma weights_ignore_values_witness :
  seed_of Landing.layers (Landing.inputVector 0 1)
  = seed_of Landing.layers (Landing.inputVector 3 7)
  ∧ weights Landing.layers (Landing.inputVector 0 1)
    = weights Landing.layers (Landing.inputVector 3 7).
Proof.
  apply (weights_ignore_values Landing.layers
           (Landing.inputVector 0 1) (Landing.inputVector 3 7)).
  reflexivity.
Defined.

End Generation.

(** ** The forward pass *)

Section ForwardPass.

Import NeuralNet GenSpec FwdSpec.

Variable tanh : float → float.

#[local] Abbreviation next_activation := (FwdSpec.next_activation tanh).

Lemma forward_step_app (weights : list layer) (acts : list (list float)) l :
  forward_step tanh weights acts l
  = acts ++ [next_activation (default (Layer [] []) (weights !! l))
                             (default [] (acts !! l))].
Proof. done. Qed.

Lemma forward_prefix (weights : list layer) (inputVector : list float) (k : nat) :
  let acts := foldl (forward_step tanh weights) [inputVector] (seq 0 k) in
  length acts = S k
  ∧ acts !! 0 = Some inputVector
  ∧ ∀ l, l < k → ∃ x, acts !! l = Some x
      ∧ acts !! S l = Some (next_activation (default (Layer [] []) (weights !! l)) x).
Proof.
  induction k as [|k (Hlen & H0 & Hstep)]; cbn zeta.
  - split; [done|]. split; [done|]. intros l Hl; lia.
  - rewrite seq_S, foldl_app. cbn [foldl Nat.add].
    set (acts := foldl (forward_step tanh weights) [inputVector] (seq 0 k)) in *.
    rewrite forward_step_app.
    destruct (lookup_lt_is_Some_2 acts k) as [xk Hxk]; [lia|].
    split; [|split].
    + rewrite length_app, Hlen. cbn. lia.
    + rewrite lookup_app_l by lia. done.
    + intros l Hl. destruct (decide (l = k)) as [->|Hne].
      * exists xk. split; [by rewrite lookup_app_l by lia|].
        rewrite lookup_app_r by lia. rewrite Hlen, Nat.sub_diag, Hxk. done.
      * destruct (Hstep l) as (x & Hx & HSx); [lia|].
        exists x. by rewrite !lookup_app_l by lia.
Qed.

Lemma length_matVecMul (Wl : list (list float)) x bl :
  length (matVecMul Wl x bl) = length Wl.
Proof. unfold matVecMul. by rewrite length_imap. Qed.

Lemma length_next_activation w x : length (next_activation w x) = length (W w).
Proof.
  unfold next_activation, applyActivation.
  by rewrite length_fmap, length_matVecMul.
Qed.

Lemma trace_lengths (weights : list layer) (inputVector : list float) :
  length <$> allActivations tanh inputVector weights
  = length inputVector :: ((fun w => length (W w)) <$> weights).
Proof.
  destruct (forward_prefix weights inputVector (length weights))
    as (Hlen & H0 & Hstep). fold (allActivations tanh inputVector weights) in *.
  apply list_eq. intros [|l].
  - rewrite list_lookup_fmap, H0. done.
  - transitivity (((fun w => length (W w)) <$> weights) !! l); [|done].
    rewrite !list_lookup_fmap.
    destruct (decide (l < length weights)) as [Hl|Hl].
    + destruct (Hstep l Hl) as (x & _ & ->).
      destruct (lookup_lt_is_Some_2 weights l Hl) as [w Hw].
      rewrite Hw. cbn. by rewrite length_next_activation.
    + rewrite (lookup_ge_None_2 weights) by lia.
      by rewrite lookup_ge_None_2 by lia.
Qed.

Lemma dot_from (a x : list float) (i : nat) (acc : float) :
  length a ≤ length (drop i x) →
  Num.reduce_from (fun s v i => s + v * Num.at_ x i)%float i acc a
  = foldl (fun s p => s + p.1 * p.2)%float acc (zip a (drop i x)).
Proof.
  revert i acc. induction a as [|v a IH]; intros i acc Hlen; [done|].
  cbn [length] in Hlen. rewrite length_drop in Hlen.
  destruct (lookup_lt_is_Some_2 x i) as [w Hw]; [lia|].
  rewrite (drop_S _ _ _ Hw). cbn [Num.reduce_from zip zip_with foldl fst snd].
  replace (Num.at_ x i) with w by (unfold Num.at_; by rewrite Hw).
  apply IH. rewrite length_drop. lia.
Qed.

Lemma dot_dot_product (row x : list float) :
  length row ≤ length x → dot row x = dot_product row x.
Proof. intros Hlen. by apply (dot_from row x 0). Qed.

Lemma weights_layers (layers : list Z) (inputVector : list float) :
  Forall (fun n => (n < 2 ^ 32)%Z) (fullCounts layers inputVector) →
  weights layers inputVector
  = Completion.Normal
      (layer_at (seed_of layers inputVector) (fullCounts layers inputVector)
       <$> seq 0 (length layers)).
Proof.
  intros Hsizes. unfold weights. rewrite generate_layers by done.
  replace (length (fullCounts layers inputVector) - 1) with (length layers);
    [done|].
  unfold fullCounts. cbn [length]. lia.
Qed.

Lemma layers_rows (layers : list Z) (inputVector : list float) seed :
  (fun w => length (W w))
  <$> (layer_at seed (fullCounts layers inputVector) <$> seq 0 (length layers))
  = Z.to_nat <$> layers.
Proof.
  rewrite <- list_fmap_compose.
  apply list_eq. intros l. rewrite !list_lookup_fmap.
  destruct (decide (l < length layers)) as [Hl|Hl].
  - rewrite lookup_seq_lt by done.
    destruct (lookup_lt_is_Some_2 layers l Hl) as [n Hn]. rewrite Hn.
    cbn. rewrite length_fmap, length_seq. unfold rows, fullCounts.
    rewrite lookup_cons_ne_0 by done. cbn [Nat.pred]. by rewrite Hn.
  - rewrite lookup_seq_ge by lia. by rewrite lookup_ge_None_2 by lia.
Qed.

Lemma weights_rows (layers : list Z) (inputVector : list float) :
  Forall (fun n => (n < 2 ^ 32)%Z) (fullCounts layers inputVector) →
  ∃ ws, weights layers inputVector = Completion.Normal ws
    ∧ (fun w => length (W w)) <$> ws = Z.to_nat <$> layers.
Proof.
  intros Hsizes. eexists. split; [by apply weights_layers|].
  apply layers_rows.
Qed.

(** C1. The trace starts with the input vector; each further element is
    [tanh] applied elementwise to [z], where [z[i]] is the dot product of row
    [i] of the layer's matrix with the previous element, plus the bias [i];
    the last element is computed by the same rule, so no sigmoid is applied
    to it; on parameters generated for layers [6; 3; 5; 2] and an input of
    length 2 the trace has the element lengths [2; 6; 3; 5; 2], and so for
    every layer list whose sizes, like the input's length, are below
    [2^32]. *)
Theorem forward_trace (inputVector : list float) (ws : list layer) :
  let trace := allActivations tanh inputVector ws in
  trace !! 0 = Some inputVector
  ∧ length trace = S (length ws)
  ∧ (∀ l Wl bl, ws !! l = Some (Layer Wl bl) →
       ∃ x, trace !! l = Some x
         ∧ trace !! S l
           = Some (tanh <$> imap (fun i row => (dot row x + Num.at_ bl i)%float) Wl))
  ∧ (∀ row x : list float, length row ≤ length x → dot row x = dot_product row x)
  ∧ (∀ ws' Wl bl, ws = ws' ++ [Layer Wl bl] →
       ∃ x, trace !! length ws' = Some x
         ∧ output tanh inputVector ws
           = tanh <$> imap (fun i row => (dot row x + Num.at_ bl i)%float) Wl)
  ∧ (∀ layers,
       Forall (fun n => (n < 2 ^ 32)%Z) (fullCounts layers inputVector) →
       ∃ generated, weights layers inputVector = Completion.Normal generated
         ∧ length <$> allActivations tanh inputVector generated
           = length inputVector :: (Z.to_nat <$> layers))
  ∧ (length inputVector = 2 →
     ∃ generated, weights [6; 3; 5; 2]%Z inputVector = Completion.Normal generated
       ∧ length <$> allActivations tanh inputVector generated = [2; 6; 3; 5; 2]).
Proof.
  cbn zeta.
  destruct (forward_prefix ws inputVector (length ws)) as (Hlen & H0 & Hstep).
  fold (allActivations tanh inputVector ws) in *.
  assert (∀ l Wl bl, ws !! l = Some (Layer Wl bl) →
            ∃ x, allActivations tanh inputVector ws !! l = Some x
              ∧ allActivations tanh inputVector ws !! S l
                = Some (tanh <$> imap (fun i row => (dot row x + Num.at_ bl i)%float) Wl))
    as Hrule.
  { intros l Wl bl Hl. destruct (Hstep l) as (x & Hx & HSx).
    - by eapply lookup_lt_Some.
    - exists x. split; [done|]. by rewrite HSx, Hl. }
  assert (∀ layers,
            Forall (fun n => (n < 2 ^ 32)%Z) (fullCounts layers inputVector) →
            ∃ generated, weights layers inputVector = Completion.Normal generated
              ∧ length <$> allActivations tanh inputVector generated
                = length inputVector :: (Z.to_nat <$> layers)) as Hshape.
  { intros layers Hsizes.
    destruct (weights_rows layers inputVector Hsizes) as (generated & Hgen & Hrows).
    exists generated. split; [done|]. by rewrite trace_lengths, Hrows. }
  split; [done|]. split; [done|]. split; [done|].
  split; [apply dot_dot_product|]. split; [|split; [done|]].
  - intros ws' Wl bl ->.
    destruct (Hrule (length ws') Wl bl) as (x & Hx & HSx).
    { by rewrite lookup_app_r, Nat.sub_diag by lia. }
    exists x. split; [done|]. unfold output. rewrite Hlen.
    rewrite length_app in *. cbn [length] in *.
    replace (S (length ws' + 1) - 1) with (S (length ws')) by lia.
    by rewrite HSx.
  - intros Hin. destruct (Hshape [6; 3; 5; 2]%Z) as (generated & Hgen & Hlens).
    { unfold fullCounts. rewrite Hin. repeat constructor. }
    exists generated. split; [done|]. by rewrite Hlens, Hin.
Qed.

End ForwardPass.

Lemma forward_trace_witness :
  ∃ generated,
    NeuralNet.weights [6; 3; 5; 2]%Z [0; 1]%float = Completion.Normal generated
    ∧ length <$> NeuralNet.allActivations (fun v => v) [0; 1]%float generated
      = [2; 6; 3; 5; 2].
Proof.
  apply (forward_trace (fun v => v) [0; 1]%float []). reflexivity.
Defined.

(** ** The forward pass on the store *)

Section StorePass.

Import NeuralNet FwdSpec.
Import (notations) Store.

#[local] Abbreviation holds := Store.holds.

Variable tanh : float → float.

Implicit Types (σ : gmap Store.loc Store.object) (ls : list Store.loc).

Lemma fresh_lookup σ : σ !! fresh (dom σ) = None.
Proof. apply not_elem_of_dom, is_fresh. Qed.

Lemma holds_weaken σ σ' ls xss : σ ⊆ σ' → holds σ ls xss → holds σ' ls xss.
Proof.
  intros Hsub Hholds. eapply Forall2_impl; [exact Hholds|].
  intros l xs Hl. eapply lookup_weaken; [exact Hl|exact Hsub].
Qed.

Lemma bind_run {A B : Type} (m : Store.Js A) (k : A → Store.Js B) σ a σ' :
  m σ = Some (a, σ') → (m ≫= k) σ = k a σ'.
Proof. intros Hm. unfold mbind, Store.js_bind. by rewrite Hm. Qed.

Lemma read_numbers_run σ l xs :
  σ !! l = Some (Store.Numbers xs) → Store.read_numbers l σ = Some (xs, σ).
Proof. intros Hl. unfold Store.read_numbers. by rewrite Hl. Qed.

Lemma forward_step_run ws acts σ0 σ ls xss a :
  σ0 ⊆ σ → σ0 !! acts = None → σ !! acts = Some (Store.Arrays ls) →
  Forall (fun l => σ0 !! l = None) ls → holds σ ls xss → length xss = S a →
  ∃ σ' l', Store.forward_step tanh ws acts a σ = Some (tt, σ')
    ∧ σ0 ⊆ σ' ∧ σ' !! acts = Some (Store.Arrays (ls ++ [l']))
    ∧ σ0 !! l' = None
    ∧ holds σ' (ls ++ [l']) (NeuralNet.forward_step tanh ws xss a).
Proof.
  intros Hsub Hfresh Hacts Hls Hholds Hlen.
  destruct (lookup_lt_is_Some_2 xss a) as [x Hx]; [lia|].
  destruct (Forall2_lookup_r _ _ _ _ _ Hholds Hx) as (la & Hla & Hσla).
  set (w := default (Layer [] []) (ws !! a)).
  set (z := fresh (dom σ)).
  set (σ1 := <[z := Store.Numbers (matVecMul (W w) x (Some (b w)))]> σ).
  set (l' := fresh (dom σ1)).
  set (σ2 := <[l' := Store.Numbers (next_activation tanh w x)]> σ1).
  assert (σ !! z = None) as Hz by apply fresh_lookup.
  assert (σ1 !! l' = None) as Hl' by apply fresh_lookup.
  assert (σ ⊆ σ1) as H01 by (by apply insert_subseteq).
  assert (σ1 ⊆ σ2) as H12 by (by apply insert_subseteq).
  assert (σ2 !! acts = Some (Store.Arrays ls)) as Hacts2.
  { eapply lookup_weaken; [|exact H12]. by eapply lookup_weaken. }
  exists (<[acts := Store.Arrays (ls ++ [l'])]> σ2), l'.
  split; [|split; [|split; [|split]]].
  - unfold Store.forward_step. fold w.
    rewrite (bind_run _ _ σ la σ).
    2:{ unfold Store.index. by rewrite Hacts, Hla. }
    rewrite (bind_run _ _ σ z σ1).
    2:{ unfold Store.matVecMul.
        by rewrite (bind_run _ _ σ x σ) by (by apply read_numbers_run). }
    rewrite (bind_run _ _ σ1 l' σ2).
    2:{ unfold Store.applyActivation.
        rewrite (bind_run _ _ σ1 (matVecMul (W w) x (Some (b w))) σ1); [done|].
        apply read_numbers_run. apply lookup_insert_eq. }
    unfold Store.push. by rewrite Hacts2.
  - apply insert_subseteq_r; [done|]. by do 2 (etrans; [|eassumption]).
  - apply lookup_insert_eq.
  - eapply lookup_weaken_None; [exact Hl'|]. by etrans.
  - rewrite forward_step_app, Hx. cbn [default]. fold w.
    assert (acts ≠ l') as Hne.
    { intros ->. eapply lookup_weaken in Hacts; [|exact H01]. congruence. }
    apply Forall2_app.
    + eapply Forall2_impl; [exact Hholds|]. intros l xs Hl. cbn beta in *.
      rewrite lookup_insert_ne by congruence.
      eapply lookup_weaken; [|exact H12]. eapply lookup_weaken; [exact Hl|exact H01].
    + constructor; [|constructor].
      rewrite lookup_insert_ne by done. apply lookup_insert_eq.
Qed.

Lemma for_loop_run ws acts σ0 n :
  ∀ a σ ls xss,
    σ0 ⊆ σ → σ0 !! acts = None → σ !! acts = Some (Store.Arrays ls) →
    Forall (fun l => σ0 !! l = None) ls → holds σ ls xss → length xss = S a →
    ∃ σ' ls', Store.for_loop (Store.forward_step tanh ws acts) (seq a n) σ
              = Some (tt, σ')
      ∧ σ0 ⊆ σ' ∧ σ' !! acts = Some (Store.Arrays ls')
      ∧ Forall (fun l => σ0 !! l = None) ls'
      ∧ holds σ' ls' (foldl (NeuralNet.forward_step tanh ws) xss (seq a n)).
Proof.
  induction n as [|n IH]; intros a σ ls xss Hsub Hfresh Hacts Hls Hholds Hlen.
  - exists σ, ls. by repeat split.
  - destruct (forward_step_run ws acts σ0 σ ls xss a)
      as (σ1 & l' & Hrun & Hsub1 & Hacts1 & Hl' & Hholds1); try done.
    destruct (IH (S a) σ1 (ls ++ [l'])
                (NeuralNet.forward_step tanh ws xss a))
      as (σ' & ls' & Hrun' & Hrest); try done.
    + apply Forall_app. split; [done|]. by constructor.
    + rewrite forward_step_app, length_app. cbn. lia.
    + exists σ', ls'. split; [|done].
      cbn [seq Store.for_loop]. by rewrite (bind_run _ _ σ tt σ1).
Qed.

(** The run of [allActivations] from a store in which [inputVector] is an
    array of numbers. *)
Lemma allActivations_run ws (inputVector : Store.loc) σ xs :
  σ !! inputVector = Some (Store.Numbers xs) →
  ∃ acts σ' ls,
    Store.allActivations tanh inputVector ws σ = Some (acts, σ')
    ∧ σ ⊆ σ'
    ∧ σ !! acts = None
    ∧ σ' !! acts = Some (Store.Arrays ls)
    ∧ Forall (fun l => σ !! l = None) ls
    ∧ holds σ' ls (NeuralNet.allActivations tanh xs ws).
Proof.
  intros Hin.
  set (x0 := fresh (dom σ)).
  set (σ1 := <[x0 := Store.Numbers xs]> σ).
  set (acts := fresh (dom σ1)).
  set (σ2 := <[acts := Store.Arrays [x0]]> σ1).
  assert (σ !! x0 = None) as Hx0 by apply fresh_lookup.
  assert (σ1 !! acts = None) as Hacts1 by apply fresh_lookup.
  assert (σ ⊆ σ1) as H01 by (by apply insert_subseteq).
  assert (σ1 ⊆ σ2) as H12 by (by apply insert_subseteq).
  assert (σ !! acts = None) as Hacts by (by eapply lookup_weaken_None).
  destruct (for_loop_run ws acts σ (length ws) 0 σ2 [x0] [xs])
    as (σ' & ls & Hrun & Hsub & Hacts' & Hls & Hholds); try done.
  - by etrans.
  - apply lookup_insert_eq.
  - by constructor.
  - constructor; [|constructor].
    eapply lookup_weaken; [|exact H12]. apply lookup_insert_eq.
  - exists acts, σ', ls. split; [|done].
    unfold Store.allActivations.
    rewrite (bind_run _ _ σ x0 σ1).
    2:{ unfold Store.slice.
        by rewrite (bind_run _ _ σ xs σ) by (by apply read_numbers_run). }
    rewrite (bind_run _ _ σ1 acts σ2) by done.
    by rewrite (bind_run _ _ σ2 tt σ').
Qed.

End StorePass.

Section StoreTrace.

Import NeuralNet.

Variable tanh : float → float.

Lemma holds_trace_at (σ : gmap Store.loc Store.object) acts ls xss :
  σ !! acts = Some (Store.Arrays ls) → Store.holds σ ls xss →
  Store.trace_at σ acts = Some xss.
Proof.
  intros Hacts Hholds. unfold Store.trace_at. rewrite Hacts.
  apply mapM_Some_2. eapply Forall2_impl; [exact Hholds|].
  intros l xs Hl. cbn beta in Hl. unfold Store.numbers_at. by rewrite Hl.
Qed.

(** C8. The array passed as [inputVector] is unchanged when [allActivations]
    returns: the run succeeds from every store in which the input is an array
    of numbers, every object of the initial store is left as it was, the first
    element of the trace is a new array with the input's contents and not the
    input array itself, and a later write to it does not reach the input. *)
Theorem input_not_mutated (ws : list layer) (inputVector : Store.loc)
    (σ : gmap Store.loc Store.object) (xs : list float) :
  σ !! inputVector = Some (Store.Numbers xs) →
  ∃ acts σ' t0 rest,
    Store.allActivations tanh inputVector ws σ = Some (acts, σ')
    ∧ σ' !! inputVector = Some (Store.Numbers xs)
    ∧ (∀ l o, σ !! l = Some o → σ' !! l = Some o)
    ∧ σ' !! acts = Some (Store.Arrays (t0 :: rest))
    ∧ t0 ≠ inputVector
    ∧ σ' !! t0 = Some (Store.Numbers xs)
    ∧ Store.trace_at σ' acts = Some (allActivations tanh xs ws)
    ∧ ∀ ys, <[t0 := Store.Numbers ys]> σ' !! inputVector = Some (Store.Numbers xs).
Proof.
  intros Hin.
  destruct (allActivations_run tanh ws inputVector σ xs Hin)
    as (acts & σ' & ls & Hrun & Hsub & Hfresh & Hacts & Hls & Hholds).
  destruct (forward_prefix tanh ws xs (length ws)) as (_ & H0 & _).
  fold (allActivations tanh xs ws) in H0.
  destruct (Forall2_lookup_r _ _ _ _ _ Hholds H0) as (t0 & Ht0 & Hσt0).
  destruct ls as [|t0' rest]; [done|]. injection Ht0 as ->.
  assert (t0 ≠ inputVector) as Hne.
  { intros ->. apply Forall_cons in Hls as [Hnone _]. congruence. }
  assert (σ' !! inputVector = Some (Store.Numbers xs)) as Hin'
    by (by eapply lookup_weaken).
  exists acts, σ', t0, rest. repeat split; try done.
  - intros l o Hl. by eapply lookup_weaken.
  - by eapply holds_trace_at.
  - intros ys. by rewrite lookup_insert_ne.
Qed.

End StoreTrace.

Lemma input_not_mutated_witness :
  ∃ acts σ' t0 rest,
    Store.allActivations (fun v => v) 5%positive
      [NeuralNet.Layer [[1; 1]] [0]]%float {[ 5%positive := Store.Numbers [0; 1]%float ]}
    = Some (acts, σ')
    ∧ σ' !! 5%positive = Some (Store.Numbers [0; 1]%float)
    ∧ σ' !! acts = Some (Store.Arrays (t0 :: rest))
    ∧ t0 ≠ 5%positive.
Proof.
  destruct (input_not_mutated (fun v => v) [NeuralNet.Layer [[1; 1]] [0]]%float
              5%positive {[ 5%positive := Store.Numbers [0; 1]%float ]}
              [0; 1]%float)
    as (acts & σ' & t0 & rest & H1 & H2 & _ & H4 & H5 & _).
  - reflexivity.
  - exists acts, σ', t0, rest. repeat split; assumption.
Defined.

(** ** Generators share nothing *)

Section Closures.

Import Completion Rng NeuralNet Draws.

Implicit Types (h : gmap positive Num.number) (r : positive).

Lemma follows_ret {A : Type} r (a : A) : follows r (mret a) (mret a).
Proof. intros h s Hs. cbn. by rewrite insert_id. Qed.

Lemma follows_bind {A B : Type} r (mh : Closure.Heap A) (m : Rng A)
    (kh : A → Closure.Heap B) (k : A → Rng B) :
  follows r mh m → (∀ a, follows r (kh a) (k a)) →
  follows r (mh ≫= kh) (m ≫= k).
Proof.
  intros Hm Hk h s Hs. unfold mbind, Closure.heap_bind, rng_bind.
  rewrite (Hm h s Hs). destruct (m s) as [a s']. cbn [fst snd].
  rewrite (Hk a (<[r := s']> h) s') by apply lookup_insert_eq.
  by rewrite insert_insert_eq.
Qed.

Lemma follows_call r : follows r (Closure.call r) call.
Proof.
  intros h s Hs. unfold Closure.call, call. rewrite Hs.
  cbv [default from_option id fst snd]. reflexivity.
Qed.

Lemma follows_throwing_ret {A : Type} r (a : A) :
  follows r (mret (M := Exc Closure.Heap) a) (mret (M := Exc Rng) a).
Proof. apply follows_ret. Qed.

Lemma follows_throwing_bind {A B : Type} r
    (mh : Exc Closure.Heap A) (m : Exc Rng A)
    (kh : A → Exc Closure.Heap B) (k : A → Exc Rng B) :
  follows r mh m → (∀ a, follows r (kh a) (k a)) →
  follows r (mh ≫= kh) (m ≫= k).
Proof.
  intros Hm Hk.
  change (follows r (mbind (M := Closure.Heap)
                       (fun c => match c with
                                 | Normal a => kh a
                                 | Throw e => mret (M := Closure.Heap) (Throw e)
                                 end) mh)
                    (mbind (M := Rng)
                       (fun c => match c with
                                 | Normal a => k a
                                 | Throw e => mret (M := Rng) (Throw e)
                                 end) m)).
  apply follows_bind; [done|]. intros [a|e]; [apply Hk | apply follows_ret].
Qed.

Lemma follows_mapM {A B : Type} r (fh : A → Exc Closure.Heap B)
    (f : A → Exc Rng B) ks :
  (∀ k, follows r (fh k) (f k)) →
  follows r (mapM (M := Exc Closure.Heap) fh ks) (mapM (M := Exc Rng) f ks).
Proof.
  intros Hf. induction ks as [|k ks IH]; [apply follows_throwing_ret|].
  cbn [mapM]. apply follows_throwing_bind; [done|]. intros y.
  apply follows_throwing_bind; [done|]. intros ys. apply follows_throwing_ret.
Qed.

Lemma follows_array_from {A : Type} r n (fh : nat → Exc Closure.Heap A)
    (f : nat → Exc Rng A) :
  (∀ k, follows r (fh k) (f k)) →
  follows r (array_from n fh) (array_from n f).
Proof.
  intros Hf. unfold array_from.
  destruct (is_array_length n); [by apply follows_mapM | apply follows_ret].
Qed.

Lemma follows_transitions r T :
  follows r (transitions (Closure.call r) T) (transitions call T).
Proof.
  assert (∀ scale, follows r (entry (Closure.call r) scale) (entry call scale))
    as Hentry.
  { intros scale. apply follows_throwing_bind.
    - apply follows_bind; [apply follows_call|]. intros x. apply follows_ret.
    - intros x. apply follows_throwing_ret. }
  apply follows_mapM. intros l. unfold transition.
  apply follows_throwing_bind.
  { apply follows_array_from. intros _. by apply follows_array_from. }
  intros Wl. apply follows_throwing_bind; [by apply follows_array_from|].
  intros bl. apply follows_throwing_ret.
Qed.

Lemma closure_generate_run T seed h :
  (Closure.generate T seed h).1 = generate T seed
  ∧ h ⊆ (Closure.generate T seed h).2.
Proof.
  unfold Closure.generate, mbind, Closure.heap_bind, Closure.mulberry32.
  set (r := fresh (dom h)).
  rewrite (follows_transitions r T (<[r := seed]> h) seed)
    by apply lookup_insert_eq.
  cbn [fst snd]. split; [done|]. rewrite insert_insert_eq.
  apply insert_subseteq, not_elem_of_dom, is_fresh.
Qed.

End Closures.

(** C5. Generation and evaluation are deterministic and share no state
    between calls: whatever the heap of closures holds, generation for a
    topology and a seed returns the same parameters (those of the generator
    run alone), a second call made after the first returns them again, and
    no variable of another generator is touched; two evaluations with the
    same parameters on input arrays with the same contents, in any two
    stores, produce the same trace. *)
Theorem runs_deterministic (tanh : float → float) (T : list Z)
    (seed : Num.number) (h h' : gmap positive Num.number)
    (ws : list NeuralNet.layer) (xs : list float)
    (σ1 σ2 : gmap Store.loc Store.object) (in1 in2 : Store.loc) :
  σ1 !! in1 = Some (Store.Numbers xs) → σ2 !! in2 = Some (Store.Numbers xs) →
  (Closure.generate T seed h).1 = (Closure.generate T seed h').1
  ∧ (Closure.generate T seed (Closure.generate T seed h).2).1
    = (Closure.generate T seed h).1
  ∧ (Closure.generate T seed h).1 = NeuralNet.generate T seed
  ∧ h ⊆ (Closure.generate T seed h).2
  ∧ ∃ acts1 τ1 acts2 τ2,
      Store.allActivations tanh in1 ws σ1 = Some (acts1, τ1)
      ∧ Store.allActivations tanh in2 ws σ2 = Some (acts2, τ2)
      ∧ Store.trace_at τ1 acts1 = Store.trace_at τ2 acts2
      ∧ Store.trace_at τ1 acts1 = Some (NeuralNet.allActivations tanh xs ws).
Proof.
  intros Hin1 Hin2.
  split; [by rewrite !(proj1 (closure_generate_run _ _ _))|].
  split; [by rewrite !(proj1 (closure_generate_run _ _ _))|].
  split; [apply closure_generate_run|]. split; [apply closure_generate_run|].
  destruct (allActivations_run tanh ws in1 σ1 xs Hin1)
    as (acts1 & τ1 & ls1 & Hrun1 & _ & _ & Hacts1 & _ & Hholds1).
  destruct (allActivations_run tanh ws in2 σ2 xs Hin2)
    as (acts2 & τ2 & ls2 & Hrun2 & _ & _ & Hacts2 & _ & Hholds2).
  exists acts1, τ1, acts2, τ2.
  rewrite (holds_trace_at _ _ _ _ Hacts1 Hholds1).
  by rewrite (holds_trace_at _ _ _ _ Hacts2 Hholds2).
Qed.

Lemma runs_deterministic_witness :
  (Closure.generate [2; 1]%Z (Num.Finite 297) ∅).1
  = (Closure.generate [2; 1]%Z (Num.Finite 297)
       {[ 1%positive := Num.Finite 5 ]}).1.
Proof.
  apply (runs_deterministic (fun v => v) [2; 1]%Z (Num.Finite 297) ∅
           {[ 1%positive := Num.Finite 5 ]}
           [] [0; 1]%float
           {[ 1%positive := Store.Numbers [0; 1]%float ]}
           {[ 2%positive := Store.Numbers [0; 1]%float ]} 1%positive 2%positive);
    reflexivity.
Defined.

(** ** Comparison of scores *)

Section Scores.

Lemma SFcompare_refl (f : spec_float) : f ≠ S754_nan → SFcompare f f = Some Eq.
Proof.
  destruct f as [s|s| |s m e]; intros Hf; try done; cbn.
  - by destruct s.
  - rewrite Z.compare_refl, Pos.compare_cont_refl. by destruct s.
Qed.

Lemma SFcompare_antisym (x y : spec_float) :
  SFcompare y x = CompOpp <$> SFcompare x y.
Proof.
  destruct x as [sx|sx| |sx m1 e1], y as [sy|sy| |sy m2 e2]; cbn;
    try done; try (by destruct sx); try (by destruct sy);
    try (by destruct sx, sy).
  rewrite (Z.compare_antisym e1 e2).
  assert (Pos.compare_cont Eq m2 m1 = CompOpp (Pos.compare_cont Eq m1 m2)) as ->
    by (symmetry; apply (Pos.compare_cont_antisym m1 m2 Eq)).
  destruct sx, sy; try done; cbn [CompOpp];
    destruct (e1 ?= e2)%Z; cbn; try done;
    by destruct (Pos.compare_cont Eq m1 m2).
Qed.

Lemma ltb_irrefl (x : float) : (x <? x)%float = false.
Proof.
  rewrite FloatAxioms.ltb_spec. unfold SFltb.
  destruct (Prim2SF x) as [s|s| |s m e] eqn:Hx; try done;
    by rewrite SFcompare_refl.
Qed.

Lemma eqb_not_ltb (x y : float) : (x =? y)%float = true → (y <? x)%float = false.
Proof.
  rewrite FloatAxioms.eqb_spec, FloatAxioms.ltb_spec. unfold SFeqb, SFltb.
  rewrite (SFcompare_antisym (Prim2SF x) (Prim2SF y)).
  by destruct (SFcompare (Prim2SF x) (Prim2SF y)) as [[]|].
Qed.

Lemma is_nan_spec (x : float) : is_nan x = true → Prim2SF x = S754_nan.
Proof.
  unfold is_nan. rewrite FloatAxioms.eqb_spec. unfold SFeqb. intros Hx.
  destruct (Prim2SF x) as [s|s| |s m e] eqn:Hf; try done;
    by rewrite SFcompare_refl in Hx.
Qed.

Lemma ltb_nan (x y : float) :
  is_nan x = true ∨ is_nan y = true → (x <? y)%float = false.
Proof.
  rewrite FloatAxioms.ltb_spec. unfold SFltb.
  intros [->%is_nan_spec | ->%is_nan_spec]; [done|].
  by destruct (Prim2SF x).
Qed.

End Scores.

(** ** The winner *)

Section Winner.

Import Landing.

Variable exp : float → float.

Lemma onResult_pair {ID : Type} (A B : ID) (a b : float) :
  onResult exp A B [a; b]
  = if (sigmoid exp b <? sigmoid exp a)%float then A else B.
Proof. done. Qed.

(** C4. The decision computes [scoreA = sigmoid(finalLayer[0])] and
    [scoreB = sigmoid(finalLayer[1])] with [sigmoid(x) = 1 / (1 + exp(-x))],
    returns the first candidate if [scoreA > scoreB] and the second
    otherwise; a tie goes to the second candidate, as for [0.0, 0.0]; and
    with an exponential that is within one unit in the last place at 1 and
    -1, [1.0, -1.0] gives the first candidate and [-1.0, 1.0] the second. *)
Theorem onResult_decision {ID : Type} (A B : ID) (a b : float) :
  (∀ x, sigmoid exp x = (1 / (1 + exp (- x)))%float)
  ∧ onResult exp A B [a; b]
    = (if (sigmoid exp b <? sigmoid exp a)%float then A else B)
  ∧ ((sigmoid exp a =? sigmoid exp b)%float = true → onResult exp A B [a; b] = B)
  ∧ onResult exp A B [0; 0]%float = B
  ∧ (exp 1 ∈ near E → exp (-1) ∈ near inv_E →
     onResult exp A B [1; -1]%float = A ∧ onResult exp A B [-1; 1]%float = B).
Proof.
  split; [done|]. split; [done|]. split; [|split].
  - intros Htie. by rewrite onResult_pair, eqb_not_ltb.
  - by rewrite onResult_pair, ltb_irrefl.
  - intros H1 Hm1. rewrite !onResult_pair. unfold sigmoid.
    assert (PrimFloat.opp 1 = (-1)%float) as -> by reflexivity.
    assert (PrimFloat.opp (-1) = 1%float) as -> by reflexivity.
    apply list_elem_of_In in H1, Hm1.
    destruct H1 as [H1|[H1|[H1|[]]]], Hm1 as [Hm1|[Hm1|[Hm1|[]]]];
      rewrite <- H1, <- Hm1; by vm_compute.
Qed.

(** C10. For every pair of numbers in the final vector the winner is one of
    the two identifiers; whenever [sigmoid(vec[0]) > sigmoid(vec[1])] does
    not hold it is the second one, in particular when a score is NaN, as it
    is for a NaN entry once [exp(NaN)] is NaN. *)
Theorem onResult_total {ID : Type} (id1 id2 : ID) (v0 v1 : float) :
  (onResult exp id1 id2 [v0; v1] = id1 ∨ onResult exp id1 id2 [v0; v1] = id2)
  ∧ ((sigmoid exp v1 <? sigmoid exp v0)%float = false →
     onResult exp id1 id2 [v0; v1] = id2)
  ∧ (is_nan (sigmoid exp v0) = true ∨ is_nan (sigmoid exp v1) = true →
     onResult exp id1 id2 [v0; v1] = id2)
  ∧ (exp nan = nan →
     onResult exp id1 id2 [nan; v1] = id2 ∧ onResult exp id1 id2 [v0; nan] = id2).
Proof.
  rewrite !onResult_pair. split; [|split; [|split]].
  - destruct (sigmoid exp v1 <? sigmoid exp v0)%float; auto.
  - by intros ->.
  - intros Hnan. rewrite ltb_nan; [done|]. tauto.
  - intros Hexp.
    assert (is_nan (sigmoid exp nan) = true) as Hnan.
    { unfold sigmoid. change (- nan)%float with nan. by rewrite Hexp. }
    by rewrite !ltb_nan by auto.
Qed.

Lemma onResult_any_length {ID : Type} (id1 id2 : ID) (vec : list float) :
  onResult exp id1 id2 vec = id1 ∨ onResult exp id1 id2 vec = id2.
Proof.
  unfold onResult.
  destruct (sigmoid exp (Num.at_ vec 1) <? sigmoid exp (Num.at_ vec 0))%float; auto.
Qed.

End Winner.

Lemma onResult_decision_witness :
  Landing.onResult Landing.exp_at_units 0%Z 1%Z [1; -1]%float = 0%Z
  ∧ Landing.onResult Landing.exp_at_units 0%Z 1%Z [-1; 1]%float = 1%Z.
Proof.
  apply (proj2 (proj2 (proj2 (proj2
           (onResult_decision Landing.exp_at_units 0%Z 1%Z 0%float 0%float))))).
  - apply list_elem_of_In. right. left. reflexivity.
  - apply list_elem_of_In. right. left. reflexivity.
Defined.

Lemma onResult_total_witness :
  Landing.onResult Landing.exp_at_units 0%Z 1%Z [nan; 1]%float = 1%Z.
Proof.
  apply (proj1 (proj2 (proj2
           (onResult_total Landing.exp_at_units 0%Z 1%Z nan 1%float)))).
  left. reflexivity.
Defined.

(** ** No validation *)

Section Outcomes.

Import NeuralNet GenSpec Outcome.

Lemma generate_in_range (T : list Z) (seed : Num.number) :
  Forall (fun n => (n < 2 ^ 32)%Z) T →
  Outcome.generate T seed
  = Normal (layer_at seed T <$> seq 0 (length T - 1)).
Proof. apply generate_layers. Qed.

(** C6, as the code has it.  Generation, evaluation and the decision perform
    no validation: generation never fails with [InvalidTopology], and for
    sizes below [2^32] it returns one transition per pair of adjacent sizes:
    none when the topology is shorter than 2, and a size [≤ 0] is read as the
    length 0, so it gives an empty matrix and bias vector (as an output size)
    or empty rows (as an input size).  Evaluation returns a trace with one
    vector more than there are layers, starting with the input, whatever the
    input's length.  The decision returns one of the two candidates for a
    vector of any length. *)
Theorem no_validation {ID : Type} (tanh exp : float → float) (T : list Z)
    (seed : Num.number) (ws : list layer) (x vec : list float) (A B : ID) :
  Outcome.generate T seed ≠ Throw InvalidTopology
  ∧ (Forall (fun n => (n < 2 ^ 32)%Z) T →
     ∃ ps, Outcome.generate T seed = Normal ps
       ∧ length ps = length T - 1
       ∧ (length T < 2 → ps = [])
       ∧ ∀ l inN outN lay,
           T !! l = Some inN → T !! S l = Some outN → ps !! l = Some lay →
           ((outN ≤ 0)%Z → W lay = [] ∧ b lay = [])
           ∧ ((inN ≤ 0)%Z → ∀ row, row ∈ W lay → row = []))
  ∧ (∃ tr, evaluate tanh ws x = Normal tr
       ∧ length tr = S (length ws) ∧ tr !! 0 = Some x)
  ∧ (decide exp vec A B = Normal A ∨ decide exp vec A B = Normal B).
Proof.
  split; [|split; [|split]].
  - unfold Outcome.generate. rewrite generate_outcome.
    by destruct (forallb _ _).
  - intros Hsizes. exists (layer_at seed T <$> seq 0 (length T - 1)).
    split; [by rewrite generate_in_range|].
    split; [by rewrite length_fmap, length_seq|].
    split.
    { intros Hlen. by replace (length T - 1) with 0 by lia. }
    intros l inN outN lay Hin Hout Hlay.
    assert (S l < length T) as Hl by (by eapply lookup_lt_Some).
    rewrite lookup_seq_fmap in Hlay by lia. injection Hlay as <-.
    assert (cols T l = Z.to_nat inN) as Hc by (unfold cols; by rewrite Hin).
    assert (rows T l = Z.to_nat outN) as Hr by (unfold rows; by rewrite Hout).
    cbn [layer_at W b]. rewrite Hc, Hr. split.
    + intros Hle. by rewrite (Z2Nat.nonpos outN).
    + intros Hle row [r [-> _]]%list_elem_of_fmap.
      by rewrite (Z2Nat.nonpos inN).
  - exists (allActivations tanh x ws). split; [done|].
    destruct (forward_prefix tanh ws x (length ws)) as (Hlen & H0 & _).
    by split.
  - unfold decide. destruct (onResult_any_length exp A B vec) as [-> | ->]; auto.
Qed.

End Outcomes.

Lemma no_validation_witness :
  ∃ ps, Outcome.generate [2; 0]%Z (Num.Finite 297) = Outcome.Normal ps
        ∧ length ps = 1.
Proof.
  destruct (proj1 (proj2 (no_validation (fun v => v) Landing.exp_at_units
                            [2; 0]%Z (Num.Finite 297) [] [] [] 0%Z 1%Z)))
    as (ps & H1 & H2 & _).
  - repeat constructor.
  - by exists ps.
Defined.

(** C6, as the specification has it, fails: a topology with the size 0 is
    generated without error, an input shorter than the rows of the first
    matrix is evaluated without error (the missing component reads as NaN),
    and a final vector of length 1 is decided without error. *)
Lemma validation_absent :
  (Outcome.invalid_topology [2; 0]%Z
   ∧ Outcome.generate [2; 0]%Z (Num.Finite 297)
     = Outcome.Normal [NeuralNet.Layer [] []]
   ∧ ¬ (Outcome.generate [2; 0]%Z (Num.Finite 297)
        = Outcome.Throw Outcome.InvalidTopology
        ↔ Outcome.invalid_topology [2; 0]%Z))
  ∧ (Outcome.input_mismatch [NeuralNet.Layer [[1; 1]] [0]]%float [1]%float
     ∧ ∀ tanh,
         Outcome.evaluate tanh [NeuralNet.Layer [[1; 1]] [0]]%float [1]%float
         = Outcome.Normal [[1%float]; [tanh nan]]
         ∧ ¬ (Outcome.evaluate tanh [NeuralNet.Layer [[1; 1]] [0]]%float [1]%float
              = Outcome.Throw Outcome.ShapeMismatch
              ↔ Outcome.input_mismatch [NeuralNet.Layer [[1; 1]] [0]]%float
                  [1]%float))
  ∧ (Outcome.decide Landing.exp_at_units [1]%float 0%Z 1%Z = Outcome.Normal 1%Z
     ∧ ∀ exp,
         ¬ (Outcome.decide exp [1]%float 0%Z 1%Z
            = Outcome.Throw Outcome.ShapeMismatch
            ↔ length [1%float] ≠ 2)).
Proof.
  assert (Outcome.invalid_topology [2; 0]%Z) as Htop.
  { right. exists 0%Z. split; [|done]. apply list_elem_of_In. right. by left. }
  assert (Outcome.input_mismatch [NeuralNet.Layer [[1; 1]] [0]]%float [1]%float)
    as Hmis.
  { exists (NeuralNet.Layer [[1; 1]] [0])%float, [1; 1]%float. by repeat split. }
  split; [|split].
  - split; [done|]. split; [by vm_compute|].
    intros [_ H]. by specialize (H Htop).
  - split; [done|]. intros tanh. split; [done|].
    intros [_ H]. by specialize (H Hmis).
  - split; [by vm_compute|]. intros exp [_ H].
    assert (length [1%float] ≠ 2) as Hlen by (cbn; lia).
    by specialize (H Hlen).
Qed.

(** * Further properties of the components *)

(** ** Not-a-number in sums *)

Section NaN.

Lemma is_nan_eq (x : float) : is_nan x = true → x = nan.
Proof. intros Hx. apply Prim2SF_inj. by rewrite (is_nan_spec x Hx). Qed.

Lemma add_nan_r (x : float) : (x + nan)%float = nan.
Proof.
  apply Prim2SF_inj. rewrite add_spec.
  change (Prim2SF nan) with S754_nan. by destruct (Prim2SF x).
Qed.

Lemma add_nan_l (x : float) : (nan + x)%float = nan.
Proof.
  apply Prim2SF_inj. rewrite add_spec.
  by change (Prim2SF nan) with S754_nan.
Qed.

Lemma mul_nan_r (x : float) : (x * nan)%float = nan.
Proof.
  apply Prim2SF_inj. rewrite mul_spec.
  change (Prim2SF nan) with S754_nan. by destruct (Prim2SF x).
Qed.

Lemma div_nan_r (x : float) : (x / nan)%float = nan.
Proof.
  apply Prim2SF_inj. rewrite div_spec.
  change (Prim2SF nan) with S754_nan. by destruct (Prim2SF x).
Qed.

End NaN.

(** ** Inputs that do not fit the first matrix *)

Section Misfit.

Import NeuralNet FwdSpec.

Variable tanh : float → float.

Lemma reduce_from_nan (x a : list float) (i : nat) :
  Num.reduce_from (fun s v i => s + v * Num.at_ x i)%float i nan a = nan.
Proof.
  revert i. induction a as [|v a IH]; intros i; [done|].
  cbn [Num.reduce_from]. by rewrite add_nan_l.
Qed.

Lemma reduce_from_short (x a : list float) (i : nat) (acc : float) :
  i ≤ length x → length x < i + length a →
  Num.reduce_from (fun s v i => s + v * Num.at_ x i)%float i acc a = nan.
Proof.
  revert i acc. induction a as [|v a IH]; intros i acc Hi Hlen.
  - cbn in Hlen. lia.
  - cbn [Num.reduce_from]. destruct (x !! i) as [w|] eqn:Hw.
    + cbn [length] in Hlen. apply lookup_lt_Some in Hw. apply IH; lia.
    + replace (Num.at_ x i) with nan by (unfold Num.at_; by rewrite Hw).
      rewrite mul_nan_r, add_nan_r. apply reduce_from_nan.
Qed.

Lemma reduce_from_surplus (x extra a : list float) (i : nat) (acc : float) :
  i + length a ≤ length x →
  Num.reduce_from (fun s v i => s + v * Num.at_ (x ++ extra) i)%float i acc a
  = Num.reduce_from (fun s v i => s + v * Num.at_ x i)%float i acc a.
Proof.
  revert i acc. induction a as [|v a IH]; intros i acc Hlen; [done|].
  cbn [length] in Hlen. cbn [Num.reduce_from].
  replace (Num.at_ (x ++ extra) i) with (Num.at_ x i).
  - apply IH. lia.
  - unfold Num.at_. by rewrite lookup_app_l by lia.
Qed.

End Misfit.

Section MisfitTrace.

Import NeuralNet FwdSpec.

Variable tanh : float → float.

Lemma dot_short (row x : list float) : length x < length row → dot row x = nan.
Proof. intros Hlen. apply reduce_from_short; cbn; lia. Qed.

Lemma dot_surplus (row x extra : list float) :
  length row ≤ length x → dot row (x ++ extra) = dot row x.
Proof. intros Hlen. by apply reduce_from_surplus. Qed.

Lemma trace_second (x : list float) (w : layer) (ws : list layer) :
  allActivations tanh x (w :: ws) !! 1 = Some (next_activation tanh w x).
Proof.
  destruct (forward_prefix tanh (w :: ws) x (length (w :: ws))) as (_ & H0 & Hstep).
  fold (allActivations tanh x (w :: ws)) in *.
  destruct (Hstep 0) as (x' & Hx' & ->); [cbn; lia|].
  rewrite H0 in Hx'. by injection Hx' as <-.
Qed.

(** X1. An input vector shorter than the rows of the first weight matrix is
    not rejected: every such row's dot product is NaN (the missing component
    reads as [undefined]), so the whole first computed layer is
    [tanh(NaN)]. *)
Theorem short_input_poisons (x : list float) (W0 : list (list float))
    (b0 : list float) (ws : list layer) :
  (∀ row, row ∈ W0 → length x < length row) →
  (∀ row, row ∈ W0 → dot row x = nan)
  ∧ allActivations tanh x (Layer W0 b0 :: ws) !! 1
    = Some ((fun _ => tanh nan) <$> W0).
Proof.
  intros Hshort. split; [intros row Hrow; by apply dot_short, Hshort|].
  rewrite trace_second. f_equal.
  unfold next_activation, applyActivation, matVecMul. cbn [W b].
  apply list_eq. intros i. rewrite !list_lookup_fmap, list_lookup_imap.
  destruct (W0 !! i) as [row|] eqn:Hrow; [|done]. cbn.
  rewrite dot_short, add_nan_l; [done|].
  by eapply Hshort, list_elem_of_lookup_2.
Qed.

Lemma next_activation_surplus (w : layer) (x extra : list float) :
  (∀ row, row ∈ W w → length row ≤ length x) →
  next_activation tanh w (x ++ extra) = next_activation tanh w x.
Proof.
  intros Hfit. unfold next_activation, applyActivation, matVecMul. f_equal.
  apply imap_ext. intros i row Hrow. cbn beta.
  rewrite dot_surplus; [done|]. by eapply Hfit, list_elem_of_lookup_2.
Qed.

Lemma surplus_prefix (x extra : list float) (w : layer) (ws : list layer) k :
  (∀ row, row ∈ W w → length row ≤ length x) →
  foldl (forward_step tanh (w :: ws)) [x ++ extra] (seq 0 k)
  = (x ++ extra) :: tail (foldl (forward_step tanh (w :: ws)) [x] (seq 0 k)).
Proof.
  intros Hfit. induction k as [|k IH]; [done|].
  rewrite seq_S, !foldl_app. cbn [foldl Nat.add]. rewrite IH.
  destruct (forward_prefix tanh (w :: ws) x k) as (Hlen & H0 & _).
  destruct (foldl (forward_step tanh (w :: ws)) [x] (seq 0 k))
    as [|x0 acts] eqn:Hacts; [done|].
  cbn in H0. injection H0 as ->. cbn [tail].
  rewrite !forward_step_app. cbn [tail app]. f_equal. f_equal.
  destruct k as [|k]; [|done].
  cbn. f_equal. by apply next_activation_surplus.
Qed.

(** X2. Input components beyond the width of the first weight matrix are
    ignored: appending them changes the first element of the trace, which is
    the input itself, and nothing else. *)
Theorem surplus_input_ignored (x extra : list float) (W0 : list (list float))
    (b0 : list float) (ws : list layer) :
  (∀ row, row ∈ W0 → length row ≤ length x) →
  allActivations tanh (x ++ extra) (Layer W0 b0 :: ws)
  = (x ++ extra) :: tail (allActivations tanh x (Layer W0 b0 :: ws)).
Proof. intros Hfit. by apply surplus_prefix. Qed.

End MisfitTrace.

Lemma short_input_poisons_witness :
  NeuralNet.allActivations (fun v => v) [1]%float
    [NeuralNet.Layer [[1; 1]; [2; 3]] [0; 0]]%float !! 1
  = Some [nan; nan].
Proof.
  apply (short_input_poisons (fun v => v) [1]%float [[1; 1]; [2; 3]]%float
           [0; 0]%float []).
  intros row Hrow. apply list_elem_of_In in Hrow.
  destruct Hrow as [<-|[<-|[]]]; cbn; lia.
Defined.

Lemma surplus_input_ignored_witness :
  NeuralNet.allActivations (fun v => v) ([1; 2] ++ [7])%float
    [NeuralNet.Layer [[1; 1]] [0]]%float
  = ([1; 2] ++ [7])%float
    :: tail (NeuralNet.allActivations (fun v => v) [1; 2]%float
               [NeuralNet.Layer [[1; 1]] [0]]%float).
Proof.
  apply (surplus_input_ignored (fun v => v) [1; 2]%float [7]%float
           [[1; 1]]%float [0]%float []).
  intros row Hrow. apply list_elem_of_In in Hrow.
  destruct Hrow as [<-|[]]; cbn; lia.
Defined.

(** ** What the renderer and the decision read *)

Section Reads.

Import Completion NeuralNet GenSpec Render.

Variable tanh : float → float.

Lemma generated_trace_lengths (layers : list Z) (inputVector : list float) :
  Forall (fun n => (n < 2 ^ 32)%Z) (fullCounts layers inputVector) →
  ∃ ws, weights layers inputVector = Normal ws
    ∧ length ws = length layers
    ∧ (∀ l, l < length layers →
         ws !! l = Some (layer_at (seed_of layers inputVector)
                                  (fullCounts layers inputVector) l))
    ∧ length <$> allActivations tanh inputVector ws
      = Num.ToLength <$> fullCounts layers inputVector.
Proof.
  intros Hsizes. eexists. split; [by apply weights_layers|].
  split; [by rewrite length_fmap, length_seq|].
  split; [intros l Hl; by apply lookup_seq_fmap|].
  rewrite trace_lengths, layers_rows. unfold fullCounts, Num.ToLength.
  cbn [fmap list_fmap]. by rewrite Nat2Z.id.
Qed.

(** X3. The vector handed to the decision is the last element of the trace
    and, for sizes below [2^32], is as wide as the last layer (the input's
    length when there are no layers); with the layer list of [Landing] it
    has exactly two components for every pair of identifiers, so the
    decision never reads a missing entry. *)
Theorem output_width (layers : list Z) (inputVector : list float) :
  (Forall (fun n => (n < 2 ^ 32)%Z) (fullCounts layers inputVector) →
   ∃ ws, weights layers inputVector = Normal ws
     ∧ last (Num.ToLength <$> fullCounts layers inputVector)
       = Some (length (output tanh inputVector ws)))
  ∧ ∀ id1 id2, ∃ ws a c,
      weights Landing.layers (Landing.inputVector id1 id2) = Normal ws
      ∧ output tanh (Landing.inputVector id1 id2) ws = [a; c].
Proof.
  assert (∀ layers inputVector,
            Forall (fun n => (n < 2 ^ 32)%Z) (fullCounts layers inputVector) →
            ∃ ws, weights layers inputVector = Normal ws
              ∧ last (Num.ToLength <$> fullCounts layers inputVector)
                = Some (length (output tanh inputVector ws))) as Hlast.
  { clear. intros layers inputVector Hsizes.
    destruct (generated_trace_lengths layers inputVector Hsizes)
      as (ws & Hws & _ & _ & Hlens).
    exists ws. split; [done|].
    rewrite <- Hlens, last_lookup, length_fmap.
    rewrite list_lookup_fmap. unfold output.
    set (acts := allActivations tanh inputVector ws).
    replace (Init.Nat.pred (length acts)) with (length acts - 1) by lia.
    destruct (forward_prefix tanh ws inputVector (length ws)) as (Hlen & _ & _).
    fold (allActivations tanh inputVector ws) in Hlen. fold acts in Hlen.
    destruct (lookup_lt_is_Some_2 acts (length acts - 1)) as [o ->]; [lia|].
    done. }
  split; [apply Hlast|].
  intros id1 id2.
  destruct (Hlast Landing.layers (Landing.inputVector id1 id2))
    as (ws & Hws & Hwidth); [repeat constructor|].
  exists ws. change (last _) with (Some 2) in Hwidth.
  destruct (output tanh _ ws) as [|a [|c [|]]]; try done. by exists a, c.
Qed.

Lemma mapM_normal {A B : Type} (f : A → completion B) (g : A → B) ks :
  (∀ k, k ∈ ks → f k = Normal (g k)) →
  mapM (M := completion) f ks = Normal (g <$> ks).
Proof.
  intros Hf. induction ks as [|k ks IH]; [done|].
  cbn [mapM fmap list_fmap]. rewrite (Hf k) by left.
  change (mapM (M := completion) f ks ≫= (fun ys => mret (g k :: ys))
          = Normal (g k :: (g <$> ks))).
  rewrite IH by (intros k' Hk'; apply Hf; by right). done.
Qed.

Lemma layout_lookup (T : list Z) (width height : float) :
  Forall (fun n => (n < 2 ^ 32)%Z) T →
  ∃ columns, layoutLayers T width height = Normal columns
    ∧ ∀ l n i, T !! l = Some n → i < Num.ToLength n →
        ∃ c, columns !! l = Some c
          ∧ x c = (width / Num.of_Z (Z.of_nat (length T) + 1)
                   * Num.of_Z (Z.of_nat l + 1))%float
          ∧ ys c !! i
            = Some (height / Num.of_Z (n + 1) * Num.of_Z (Z.of_nat i + 1))%float.
Proof.
  intros Hsizes. unfold layoutLayers. eexists. split.
  - apply (mapM_normal _
      (fun l => Column
         (width / Num.of_Z (Z.of_nat (length T) + 1) * Num.of_Z (Z.of_nat l + 1))
         ((fun i => (height / Num.of_Z (default 0%Z (T !! l) + 1)
                     * Num.of_Z (Z.of_nat i + 1))%float)
          <$> seq 0 (Num.ToLength (default 0%Z (T !! l)))))).
    intros l _.
    replace (is_array_length (default 0%Z (T !! l))) with true; [done|].
    symmetry. unfold is_array_length. apply Z.ltb_lt.
    destruct (T !! l) as [n|] eqn:Hn; [|done].
    by apply (Forall_lookup_1 _ _ _ _ Hsizes Hn).
  - intros l n i Hl Hi.
    rewrite lookup_seq_fmap by (by eapply lookup_lt_Some).
    eexists. split; [done|]. cbn [x ys]. rewrite Hl. cbn [default].
    split; [done|]. by rewrite lookup_seq_fmap.
Qed.

(** X4. Drawing never reads out of bounds.  For sizes below [2^32], for the
    parameters and activations computed from the same layer list and input,
    and for every edge the renderer draws (transition [l], source neuron
    [iPrev] below the size of layer [l], target neuron [iNext] below the size
    of layer [l + 1]), [edgeStrength] is the product of the generated weight
    of row [iNext], column [iPrev], and the activation [iPrev] of layer [l],
    both present, and both end points have coordinates in the layout. *)
Theorem edges_in_bounds (layers : list Z) (inputVector : list float)
    (width height : float) (l iPrev iNext : nat) (nPrev nNext : Z) :
  let T := fullCounts layers inputVector in
  Forall (fun n => (n < 2 ^ 32)%Z) T →
  T !! l = Some nPrev → T !! S l = Some nNext →
  iPrev < Num.ToLength nPrev → iNext < Num.ToLength nNext →
  ∃ ws columns xs a c1 c2 y1 y2,
    weights layers inputVector = Normal ws
    ∧ layoutLayers T width height = Normal columns
    ∧ allActivations tanh inputVector ws !! l = Some xs ∧ xs !! iPrev = Some a
    ∧ edgeStrength ws (allActivations tanh inputVector ws) l iPrev iNext
      = Some (weight_entry (seed_of layers inputVector) T l iNext iPrev * a)%float
    ∧ columns !! l = Some c1 ∧ ys c1 !! iPrev = Some y1
    ∧ columns !! S l = Some c2 ∧ ys c2 !! iNext = Some y2.
Proof.
  intros T Hsizes Hprev Hnext HiPrev HiNext.
  assert (S l < length T) as Hl by (by eapply lookup_lt_Some).
  destruct (generated_trace_lengths layers inputVector Hsizes)
    as (ws & Hws & _ & Hlay & Hlens).
  destruct (layout_lookup T width height Hsizes) as (columns & Hcols & Hcol).
  set (acts := allActivations tanh inputVector ws) in *.
  assert ((length <$> acts) !! l = Some (Num.ToLength nPrev)) as Hlen.
  { rewrite Hlens, list_lookup_fmap. fold T. by rewrite Hprev. }
  rewrite list_lookup_fmap in Hlen.
  destruct (acts !! l) as [xs|] eqn:Hxs; [|done]. injection Hlen as Hlen.
  destruct (lookup_lt_is_Some_2 xs iPrev) as [a Ha]; [lia|].
  destruct (Hcol l nPrev iPrev) as (c1 & Hc1 & _ & Hy1); [done..|].
  destruct (Hcol (S l) nNext iNext) as (c2 & Hc2 & _ & Hy2); [done..|].
  exists ws, columns, xs, a, c1, c2. do 2 eexists.
  split; [done|]. split; [done|]. split; [done|]. split; [done|].
  split; [|by eauto].
  unfold edgeStrength. rewrite Hlay by (unfold T, fullCounts in Hl; cbn in Hl; lia).
  fold T. cbn [mbind option_bind layer_at W].
  assert (rows T l = Num.ToLength nNext) as Hr by (unfold rows; by rewrite Hnext).
  assert (cols T l = Num.ToLength nPrev) as Hc by (unfold cols; by rewrite Hprev).
  rewrite lookup_seq_fmap by lia. cbn [mbind option_bind].
  unfold Num.at_. rewrite lookup_seq_fmap by lia.
  fold acts. rewrite Hxs. cbn [mbind option_bind]. by rewrite Ha.
Qed.

End Reads.

Lemma output_width_witness :
  ∃ ws, NeuralNet.weights [3; 2]%Z [0; 1]%float = Completion.Normal ws
    ∧ length (NeuralNet.output (fun v => v) [0; 1]%float ws) = 2.
Proof.
  destruct (proj1 (output_width (fun v => v) [3; 2]%Z [0; 1]%float))
    as (ws & Hws & Hlast).
  - repeat constructor.
  - exists ws. split; [done|]. by injection Hlast as <-.
Defined.

Lemma edges_in_bounds_witness :
  ∃ ws xs a,
    NeuralNet.weights [2; 1]%Z [0; 1]%float = Completion.Normal ws
    ∧ NeuralNet.allActivations (fun v => v) [0; 1]%float ws !! 1 = Some xs
    ∧ xs !! 1 = Some a.
Proof.
  destruct (edges_in_bounds (fun v => v) [2; 1]%Z [0; 1]%float 900 420 1 1 0
              2 1 ltac:(repeat constructor) eq_refl eq_refl
              ltac:(vm_compute; lia) ltac:(vm_compute; lia))
    as (ws & columns & xs & a & c1 & c2 & y1 & y2 & H1 & _ & H2 & H3 & _).
  by exists ws, xs, a.
Defined.

(** ** Colours *)

Section Colours.

Import JsMath Paint.

Lemma is_nan_false (x : float) : Prim2SF x ≠ S754_nan → is_nan x = false.
Proof.
  intros Hx. unfold is_nan. rewrite FloatAxioms.eqb_spec. unfold SFeqb.
  by rewrite SFcompare_refl.
Qed.

Lemma leb_not_nan (x y : float) : (x <=? y)%float = true → is_nan y = false.
Proof.
  intros Hle. destruct (is_nan y) eqn:Hy; [|done].
  apply is_nan_eq in Hy as ->. rewrite FloatAxioms.leb_spec in Hle.
  change (Prim2SF nan) with S754_nan in Hle. unfold SFleb in Hle.
  by destruct (Prim2SF x).
Qed.

Lemma ltb_asym (x y : float) : (x <? y)%float = true → (y <? x)%float = false.
Proof.
  rewrite !FloatAxioms.ltb_spec. unfold SFltb.
  rewrite (SFcompare_antisym (Prim2SF x) (Prim2SF y)).
  by destruct (SFcompare (Prim2SF x) (Prim2SF y)) as [[]|].
Qed.

Lemma min_cases (a c : float) :
  is_nan a = false → is_nan c = false → min a c = a ∨ min a c = c.
Proof.
  intros Ha Hc. unfold min. rewrite Ha, Hc. cbn [orb].
  destruct (a <? c)%float; [by left|].
  destruct (c <? a)%float; [by right|].
  destruct (is_neg_zero a); auto.
Qed.

Lemma max_cases (a c : float) :
  is_nan a = false → is_nan c = false → max a c = a ∨ max a c = c.
Proof.
  intros Ha Hc. unfold max. rewrite Ha, Hc. cbn [orb].
  destruct (a <? c)%float; [by right|].
  destruct (c <? a)%float; [by left|].
  destruct (is_neg_zero a); auto.
Qed.

Lemma max_lt (a c : float) :
  is_nan a = false → is_nan c = false → (a <? c)%float = true → max a c = c.
Proof. intros Ha Hc Hlt. unfold max. by rewrite Ha, Hc, Hlt. Qed.

Lemma min_gt (a c : float) :
  is_nan a = false → is_nan c = false → (c <? a)%float = true → min a c = c.
Proof.
  intros Ha Hc Hlt. unfold min. by rewrite Ha, Hc, (ltb_asym c a Hlt), Hlt.
Qed.

Lemma above_minus_one (u : float) :
  (0 <=? u)%float = true → (-1 <? u)%float = true.
Proof.
  rewrite FloatAxioms.leb_spec, FloatAxioms.ltb_spec.
  change (Prim2SF 0) with (S754_zero false).
  change (Prim2SF (-1)) with (S754_finite true 4503599627370496 (-52)).
  by destruct (Prim2SF u) as [[]|[]| |[] m e].
Qed.

Lemma below_one (s : float) :
  is_nan s = false → (0 <=? s)%float = false → (s <? 1)%float = true.
Proof.
  intros Hnan. rewrite FloatAxioms.leb_spec, FloatAxioms.ltb_spec.
  change (Prim2SF 0) with (S754_zero false).
  change (Prim2SF 1) with (S754_finite false 4503599627370496 (-52)).
  destruct (Prim2SF s) as [[]|[]| |[] m e] eqn:Hs; try done.
  exfalso. revert Hnan. unfold is_nan. by rewrite FloatAxioms.eqb_spec, Hs.
Qed.

(** X5. An edge is drawn orange exactly when its strength is at least zero
    (minus zero included), and blue otherwise: for every negative strength
    and for NaN. *)
Theorem strengthToColor_sign (s : float) :
  (strengthToColor s = "#f59e0b"%string ↔ (0 <=? s)%float = true)
  ∧ (strengthToColor s = "#3b82f6"%string ↔ (0 <=? s)%float = false).
Proof.
  assert ((0 <=? s)%float = true → strengthToColor s = "#f59e0b"%string) as Hpos.
  { intros Hs. pose proof (leb_not_nan _ _ Hs) as Hnan.
    assert (is_nan (min 1 s) = false ∧ (0 <=? min 1 s)%float = true) as [Hu Hle].
    { destruct (min_cases 1 s) as [-> | ->]; done. }
    unfold strengthToColor.
    rewrite (max_lt (-1) (min 1 s)); [by rewrite Hle|done|done|].
    by apply above_minus_one. }
  assert ((0 <=? s)%float = false → strengthToColor s = "#3b82f6"%string) as Hneg.
  { intros Hs. destruct (is_nan s) eqn:Hnan.
    { by apply is_nan_eq in Hnan as ->. }
    unfold strengthToColor.
    rewrite (min_gt 1 s) by (done || by apply below_one).
    destruct (max_cases (-1) s) as [-> | ->]; try done. by rewrite Hs. }
  split; (split; [|done]); intros Hcol;
    destruct (0 <=? s)%float eqn:Hs; try done.
  - by rewrite Hneg in Hcol.
  - by rewrite Hpos in Hcol.
Qed.

Lemma max_nan_r (a : float) : max a nan = nan.
Proof. unfold max. change (is_nan nan) with true. by rewrite orb_true_r. Qed.

Lemma max_nan_l (a : float) : max nan a = nan.
Proof. done. Qed.

Lemma max_of_nan (xs : list float) : foldl max nan xs = nan.
Proof. induction xs as [|v xs IH]; [done|]. cbn [foldl]. by rewrite max_nan_l. Qed.

Lemma max_of_poisoned (xs : list float) (acc : float) :
  nan ∈ xs → foldl max acc xs = nan.
Proof.
  revert acc. induction xs as [|v xs IH]; intros acc Hin.
  - by apply elem_of_nil in Hin.
  - cbn [foldl]. apply elem_of_cons in Hin as [<- | Hin].
    + rewrite max_nan_r. apply max_of_nan.
    + by apply IH.
Qed.

(** X6. Normalising a layer for colouring keeps its length, and one NaN
    activation turns every value of the layer into NaN: the maximum that all
    values are divided by is then NaN. *)
Theorem normalizeColoring_nan (x : list float) :
  length (normalizeColoring x) = length x
  ∧ ((∃ v, v ∈ x ∧ is_nan v = true) →
     normalizeColoring x = (fun _ => nan) <$> x).
Proof.
  split; [unfold normalizeColoring; by rewrite length_fmap|].
  intros (v & Hv & Hnan). apply is_nan_eq in Hnan as ->.
  unfold normalizeColoring, max_of.
  rewrite (max_of_poisoned (abs <$> x)).
  - rewrite max_nan_r. apply list_fmap_ext. intros _ w _. apply div_nan_r.
  - change nan with (abs nan). by apply list_elem_of_fmap_2.
Qed.

End Colours.

Lemma normalizeColoring_nan_witness :
  Paint.normalizeColoring [1; nan; -3]%float = [nan; nan; nan].
Proof.
  apply (proj2 (normalizeColoring_nan [1; nan; -3]%float)).
  exists nan. split; [|reflexivity].
  apply list_elem_of_In. right. left. reflexivity.
Defined.

(** ** Teams *)

Section TeamFacts.

Import Teams.

Lemma to_int_not_nil (z : Z) :
  Z.to_int z ≠ Decimal.Pos Decimal.Nil ∧ Z.to_int z ≠ Decimal.Neg Decimal.Nil.
Proof.
  destruct z as [|p|p]; cbn; split; try done; intros [= Hp];
    by apply DecimalPos.Unsigned.to_uint_nonnil in Hp.
Qed.

Lemma decimal_inj (a c : Z) : decimal a = decimal c → a = c.
Proof.
  unfold decimal. intros Heq.
  apply (f_equal NilZero.int_of_string) in Heq.
  destruct (to_int_not_nil a), (to_int_not_nil c).
  rewrite !NilZero.isi in Heq by done.
  injection Heq as Heq. by apply DecimalZ.to_int_inj.
Qed.

Lemma String_safe (a : Z) : Num.safe a → String_ a = decimal a.
Proof.
  unfold Num.safe, String_. intros Ha.
  by replace (Z.abs a <? 2 ^ 53)%Z with true by (symmetry; by apply Z.ltb_lt).
Qed.

Lemma String_eqb (a c : Z) :
  Num.safe a → Num.safe c →
  String.eqb (String_ a) (String_ c) = bool_decide (a = c).
Proof.
  intros Ha Hc. rewrite !String_safe by done.
  case_bool_decide as Hac.
  - subst. apply String.eqb_refl.
  - apply String.eqb_neq. intros Heq. by apply Hac, decimal_inj.
Qed.

Lemma find_elem {A : Type} (f : A → bool) (l : list A) (x : A) :
  List.find f l = Some x → x ∈ l ∧ f x = true.
Proof.
  intros [Hin Hf]%List.find_some. split; [by apply list_elem_of_In|done].
Qed.

Lemma find_none_elem {A : Type} (f : A → bool) (l : list A) :
  List.find f l = None → ∀ x, x ∈ l → f x = false.
Proof.
  intros Hnone x Hx%list_elem_of_In. by eapply List.find_none.
Qed.

Lemma card_shows_team (teams : list Team) (teamId : Z) (t : Team) :
  Forall (fun t => Num.safe (id t)) teams →
  t ∈ teams → id t = teamId →
  ∃ t', PredictedWinnerCard teams teamId = Winner t' ∧ id t' = teamId.
Proof.
  intros Hsafe Ht Hid. unfold PredictedWinnerCard.
  assert (Num.safe teamId) as Hsafe_id
    by (subst; by apply (proj1 (Forall_forall _ _) Hsafe)).
  replace (length teams =? 0)%nat with false
    by (destruct teams; [by apply elem_of_nil in Ht | done]).
  destruct (List.find _ teams) as [t'|] eqn:Hfind.
  - apply find_elem in Hfind as [Hin Hid'].
    rewrite String_eqb in Hid'
      by (try done; by apply (proj1 (Forall_forall _ _) Hsafe)).
    apply bool_decide_eq_true in Hid'. by exists t'.
  - pose proof (find_none_elem _ _ Hfind t Ht) as Hnone. cbn beta in Hnone.
    rewrite String_eqb in Hnone
      by (try done; by apply (proj1 (Forall_forall _ _) Hsafe)).
    by apply bool_decide_eq_false in Hnone.
Qed.

(** X7. For identifiers below [2^53] in magnitude, which [String] prints
    with all their digits: the card shows "No teams provided" exactly for an
    empty list; it shows a team only if that team is in the list and has the
    requested identifier, it does show one whenever some team of the list
    has it, and it shows "Unknown team" with the identifier's text exactly
    when the list is not empty and no team has it. *)
Theorem card_cases (teams : list Team) (teamId : Z) :
  Forall (fun t => Num.safe (id t)) teams → Num.safe teamId →
  (PredictedWinnerCard teams teamId = NoTeams ↔ teams = [])
  ∧ (∀ t, PredictedWinnerCard teams teamId = Winner t → t ∈ teams ∧ id t = teamId)
  ∧ (∀ t, t ∈ teams → id t = teamId →
       ∃ t', PredictedWinnerCard teams teamId = Winner t' ∧ id t' = teamId)
  ∧ (∀ s, PredictedWinnerCard teams teamId = UnknownTeam s ↔
       teams ≠ [] ∧ s = String_ teamId ∧ ∀ t, t ∈ teams → id t ≠ teamId)
  ∧ String_ teamId = decimal teamId.
Proof.
  intros Hsafe Hsafe_id.
  assert (∀ t, t ∈ teams →
            String.eqb (String_ (id t)) (String_ teamId)
            = bool_decide (id t = teamId)) as Heqb.
  { intros t Ht. apply String_eqb; [|done].
    by apply (proj1 (Forall_forall _ _) Hsafe). }
  split; [|split; [|split; [|split; [|by apply String_safe]]]];
    revert Heqb; clear Hsafe Hsafe_id; unfold PredictedWinnerCard; intros Heqb.
  - destruct teams; [done|]. cbn [length Nat.eqb].
    split; [|done]. by destruct (List.find _ _).
  - intros t. destruct (length teams =? 0)%nat; [done|].
    destruct (List.find _ teams) as [t'|] eqn:Hfind; [|done].
    intros [= <-]. apply find_elem in Hfind as [Hin Hid].
    rewrite Heqb in Hid by done. by apply bool_decide_eq_true in Hid.
  - intros t Ht Hid.
    replace (length teams =? 0)%nat with false
      by (destruct teams; [by apply elem_of_nil in Ht | done]).
    destruct (List.find _ teams) as [t'|] eqn:Hfind.
    + apply find_elem in Hfind as [Hin Hid'].
      rewrite Heqb in Hid' by done. apply bool_decide_eq_true in Hid'.
      by exists t'.
    + pose proof (find_none_elem _ _ Hfind t Ht) as Hnone. cbn beta in Hnone.
      rewrite Heqb in Hnone by done. by apply bool_decide_eq_false in Hnone.
  - intros s. destruct teams as [|t0 teams'] eqn:Hteams; [|rewrite <- Hteams in *].
    { cbn. split; [done | by intros [? _]]. }
    replace (length teams =? 0)%nat with false by (by subst).
    assert (teams ≠ []) as Hne by (by subst). clear Hteams.
    destruct (List.find _ teams) as [t'|] eqn:Hfind.
    + apply find_elem in Hfind as [Hin Hid].
      rewrite Heqb in Hid by done. apply bool_decide_eq_true in Hid.
      split; [done|]. intros (_ & _ & Hno). by destruct (Hno t' Hin).
    + split; [intros [= <-] | by intros (_ & -> & _)].
      split; [done|]. split; [done|]. intros t Ht Hid.
      pose proof (find_none_elem _ _ Hfind t Ht) as Hnone. cbn beta in Hnone.
      rewrite Heqb in Hnone by done. by apply bool_decide_eq_false in Hnone.
Qed.

Lemma find_named_spec (teams : list Team) (selected : option string) (t : Team) :
  find_named teams selected = Some t → t ∈ teams ∧ selected = Some (name t).
Proof.
  unfold find_named. intros [Hin Hname]%find_elem. split; [done|].
  destruct selected as [s|]; [|done]. by apply String.eqb_eq in Hname as ->.
Qed.

Lemma onSubmit_spec (teams : list Team) (disabled : bool) (st : picker) a c :
  onSubmit teams disabled st = Some (a, c) ↔
  disabled = false
  ∧ find_named teams (teamAName st) = Some a
  ∧ find_named teams (teamBName st) = Some c
  ∧ name a ≠ name c.
Proof.
  unfold onSubmit, canActivate.
  destruct (find_named teams (teamAName st)) as [a'|],
           (find_named teams (teamBName st)) as [c'|];
    try (split; [by destruct disabled | by intros (_ & ? & ? & _)]).
  rewrite !bool_decide_eq_true_2 by done. cbn [andb].
  destruct (String.eqb_spec (name a') (name c')) as [Heq|Hne], disabled; cbn.
  - split; [done | by intros (? & _)].
  - split; [done | intros (_ & [= <-] & [= <-] & Hne); by destruct Hne].
  - split; [done | by intros (? & _)].
  - split; [by intros [= <- <-] | by intros (_ & [= <-] & [= <-] & _)].
Qed.

(** X8. The picker activates only when it is enabled and both selected names
    belong to teams of the list with different names: the pair it hands over
    are teams of the list carrying the two selected names.  Whenever it is
    disabled, or a name is not selected, or both names are the same, nothing
    is handed over. *)
Theorem onSubmit_guard (teams : list Team) (disabled : bool) (st : picker) :
  (∀ a c, onSubmit teams disabled st = Some (a, c) →
     disabled = false ∧ a ∈ teams ∧ c ∈ teams
     ∧ teamAName st = Some (name a) ∧ teamBName st = Some (name c)
     ∧ name a ≠ name c)
  ∧ (disabled = true ∨ teamAName st = None ∨ teamBName st = None
     ∨ teamAName st = teamBName st →
     onSubmit teams disabled st = None).
Proof.
  split.
  - intros a c (Hd & [Ha HA]%find_named_spec & [Hc HC]%find_named_spec & Hne)%onSubmit_spec.
    done.
  - intros Hbad. destruct (onSubmit teams disabled st) as [[a c]|] eqn:Hsub; [|done].
    apply onSubmit_spec in Hsub
      as (Hd & [Ha HA]%find_named_spec & [Hc HC]%find_named_spec & Hne).
    destruct Hbad as [?|[?|[?|Heq]]]; congruence.
Qed.

(** X9. Swapping twice restores the selection, and swapping exchanges the two
    teams that are handed over on activation (none before, none after); a
    disabled picker does not swap. *)
Theorem handleSwap_exchanges (teams : list Team) (st : picker) :
  handleSwap false (handleSwap false st) = st
  ∧ onSubmit teams false (handleSwap false st)
    = (fun p => (p.2, p.1)) <$> onSubmit teams false st
  ∧ handleSwap true st = st.
Proof.
  split; [by destruct st|]. split; [|done].
  destruct (onSubmit teams false st) as [[a c]|] eqn:Hsub.
  - apply onSubmit_spec in Hsub as (_ & Ha & Hc & Hne).
    apply onSubmit_spec. by repeat split.
  - destruct (onSubmit teams false (handleSwap false st)) as [[c a]|] eqn:Hswap;
      [|done].
    apply onSubmit_spec in Hswap as (_ & Hc & Ha & Hne).
    assert (onSubmit teams false st = Some (a, c)) as Hsub'
      by (apply onSubmit_spec; by repeat split).
    congruence.
Qed.

End TeamFacts.

Lemma card_cases_witness :
  Teams.PredictedWinnerCard Teams.TEAMS 99 = Teams.UnknownTeam "99".
Proof.
  apply (proj1 (proj2 (proj2 (proj2
           (card_cases Teams.TEAMS 99
              ltac:(unfold Num.safe; repeat constructor)
              ltac:(unfold Num.safe; cbn; lia)))))).
  split; [done|]. split; [done|].
  intros t Ht%list_elem_of_In. cbn in Ht.
  repeat (destruct Ht as [<-|Ht]; [discriminate|]). destruct Ht.
Defined.

Lemma onSubmit_guard_witness :
  Teams.onSubmit Teams.TEAMS false
    (Teams.Picker (Some "Sun"%string) (Some "Sun"%string)) = None.
Proof.
  apply (proj2 (onSubmit_guard Teams.TEAMS false
                  (Teams.Picker (Some "Sun"%string) (Some "Sun"%string)))).
  right. right. right. reflexivity.
Defined.

Section LandingStates.

Import Teams.

Variable exp : float → float.

Lemma teams_ids_distinct : NoDup (id <$> TEAMS).
Proof. apply (bool_decide_unpack (NoDup (id <$> TEAMS))). by vm_compute. Qed.

Lemma teams_ids_safe : Forall (fun t => Num.safe (id t)) TEAMS.
Proof. unfold Num.safe. repeat constructor. Qed.

Lemma team_of_id (a c : Team) : a ∈ TEAMS → c ∈ TEAMS → id a = id c → a = c.
Proof.
  intros [i Hi]%list_elem_of_lookup [j Hj]%list_elem_of_lookup Hid.
  assert (i = j) as ->; [|congruence].
  apply (NoDup_lookup (id <$> TEAMS) i j (id a) teams_ids_distinct).
  - by rewrite list_lookup_fmap, Hi.
  - by rewrite list_lookup_fmap, Hj, Hid.
Qed.

Lemma known_initial : known initial.
Proof.
  assert (known_id 0) as H0.
  { exists {| name := "Pacers"; color := "rgba(38, 0, 255, 1)"; id := 0 |}.
    split; [|done]. apply list_elem_of_In. by left. }
  assert (known_id 1) as H1.
  { exists {| name := "OKC"; color := "rgba(255, 0, 0, 1)"; id := 1 |}.
    split; [|done]. apply list_elem_of_In. right. by left. }
  by repeat split.
Qed.

Lemma known_step (st st' : landing) : step exp st st' → known st → known st'.
Proof.
  intros Hstep Hk. pose proof Hk as (H1 & H2 & Hw & Hne & Hrun).
  destruct Hstep as [pk a c st Hsub | st | vec st].
  - apply onSubmit_spec in Hsub
      as (_ & [Ha _]%find_named_spec & [Hc _]%find_named_spec & Hname).
    split; [by exists a|]. split; [by exists c|]. split; [done|].
    split; [|done].
    cbn. intros Hid. apply Hname. f_equal. by apply team_of_id.
  - unfold activate. destruct (running st) as [[i1 i2]|] eqn:Hr; [done|].
    split; [done|]. split; [done|]. split; [done|]. split; [done|].
    cbn. by intros i1 i2 [= <- <-].
  - unfold result. destruct (running st) as [[i1 i2]|] eqn:Hr; [|done].
    destruct (Hrun i1 i2 eq_refl) as [Hi1 Hi2].
    split; [done|]. split; [done|]. split; [|done]. cbn.
    by destruct (onResult_any_length exp i1 i2 vec) as [-> | ->].
Qed.

(** X10. Whatever teams are picked, whenever the canvas is started and
    whatever final vectors its runs report, the winner kept by [Landing] is
    the identifier of a team of the table, so the card always shows that team
    (never "Unknown team"), and the two selected identifiers differ.  The
    winner is only replaced by a report: after a new pick the card can show a
    team that is neither of the two selected ones. *)
Theorem winner_always_known :
  (∀ st, rtc (step exp) initial st →
     (∃ t, PredictedWinnerCard TEAMS (winnerID st) = Winner t
           ∧ id t = winnerID st)
     ∧ id1 st ≠ id2 st)
  ∧ ∃ st, rtc (step exp) initial st
          ∧ winnerID st ≠ id1 st ∧ winnerID st ≠ id2 st.
Proof.
  split.
  - intros st Hreach.
    assert (known st) as (_ & _ & (w & Hw & Hid) & Hne & _).
    { revert st Hreach. apply (rtc_ind_r known initial known_initial).
      intros st' st'' _ Hstep IH. by eapply known_step. }
    split; [|done].
    by apply (card_shows_team TEAMS (winnerID st) w teams_ids_safe).
  - exists {| id1 := 2; id2 := 3; winnerID := 0; running := None |}.
    split; [|done].
    apply rtc_once.
    apply (step_pick exp (Picker (Some "Rebels"%string) (Some "UIC"%string))
             {| name := "Rebels"; color := "rgba(21, 255, 0, 1)"; id := 2 |}
             {| name := "UIC"; color := "rgba(238, 255, 0, 1)"; id := 3 |}
             initial).
    done.
Qed.

End LandingStates.

Section PickerDefaults.

Import Teams.

Lemma find_named_first (t0 : Team) (rest : list Team) :
  find_named (t0 :: rest) (Some (name t0)) = Some t0.
Proof. unfold find_named. cbn. by rewrite String.eqb_refl. Qed.

(** X11. When no name has been chosen and some team of the list is named
    differently from the first one, the defaults select the first team and
    a differently named one, and the picker can activate at once with the
    first team as team A. *)
Theorem defaults_activate (t0 : Team) (rest : list Team) (st : picker) :
  teamAName st = None → teamBName st = None →
  (∃ t, t ∈ rest ∧ name t ≠ name t0) →
  ∃ c, onSubmit (t0 :: rest) false (defaults (t0 :: rest) st) = Some (t0, c)
       ∧ c ∈ rest ∧ name c ≠ name t0
       ∧ teamAName (defaults (t0 :: rest) st) = Some (name t0)
       ∧ teamBName (defaults (t0 :: rest) st) = Some (name c).
Proof.
  intros HA HB (t & Ht & Hname).
  unfold defaults. rewrite HA, HB. cbn [length Nat.eqb head fmap option_fmap option_map].
  destruct (List.find _ (t0 :: rest)) as [t1|] eqn:Hfind.
  2:{ pose proof (find_none_elem _ _ Hfind t) as Hnone. cbn beta in Hnone.
      rewrite bool_decide_eq_false_2 in Hnone by congruence.
      discriminate Hnone. by right. }
  apply find_elem in Hfind as [Hin Hne].
  apply negb_true_iff, bool_decide_eq_false in Hne.
  assert (name t1 ≠ name t0) as Hne1 by congruence.
  apply elem_of_cons in Hin as [-> | Hin]; [done|].
  cbn [fmap option_fmap option_map].
  destruct (find_named (t0 :: rest) (Some (name t1))) as [c|] eqn:Hc.
  2:{ unfold find_named in Hc.
      pose proof (find_none_elem _ _ Hc t1) as Hnone. cbn beta iota in Hnone.
      rewrite String.eqb_refl in Hnone. discriminate Hnone. by right. }
  pose proof (find_named_spec _ _ _ Hc) as [Hcin [= Hcname]].
  exists c. rewrite Hcname.
  apply elem_of_cons in Hcin as [-> | Hcin]; [by destruct Hne1|].
  split; [|by rewrite <- Hcname].
  apply onSubmit_spec. cbn [teamAName teamBName].
  split; [done|]. split; [apply find_named_first|].
  split; [by rewrite <- Hcname | congruence].
Qed.

End PickerDefaults.

Lemma defaults_activate_witness :
  ∃ c, Teams.onSubmit Teams.TEAMS false
         (Teams.defaults Teams.TEAMS (Teams.Picker None None))
       = Some ({| Teams.name := "Pacers"; Teams.color := "rgba(38, 0, 255, 1)";
                  Teams.id := 0 |}, c).
Proof.
  destruct (defaults_activate
              {| Teams.name := "Pacers"; Teams.color := "rgba(38, 0, 255, 1)";
                 Teams.id := 0 |} (tail Teams.TEAMS) (Teams.Picker None None)
              eq_refl eq_refl) as (c & Hc & _).
  - exists {| Teams.name := "OKC"; Teams.color := "rgba(255, 0, 0, 1)";
             Teams.id := 1 |}.
    split; [apply list_elem_of_In; by left | discriminate].
  - by exists c.
Defined.

(** ** The generator reads 32 bits of its state *)

Section LowBits.

Lemma ToUint32_shift (z k : Z) : Num.ToUint32 (z + k * 2 ^ 32) = Num.ToUint32 z.
Proof. unfold Num.ToUint32, Num.two32. by rewrite Z.mod_add. Qed.

Lemma ToInt32_shift (z k : Z) : Num.ToInt32 (z + k * 2 ^ 32) = Num.ToInt32 z.
Proof. unfold Num.ToInt32, Num.two32. by rewrite Z.mod_add. Qed.

(** X12. The value returned by a call of the generator depends on its state
    only through the state's low 32 bits: states that differ by a multiple of
    [2^32] return the same number. *)
Theorem out_low_bits (seed k : Z) :
  Rng.out (Num.Finite (seed + k * 2 ^ 32)) = Rng.out (Num.Finite seed).
Proof.
  unfold Rng.out, Num.integer, Num.xor, Num.or, Num.ushr.
  by rewrite !ToUint32_shift, !ToInt32_shift.
Qed.

End LowBits.

(** ** Editing the topology *)

Section TopologyEdits.

Import Editor.

Lemma ends_of (l : list Z) :
  2 ≤ length l → ∃ init a z, l = init ++ [a; z].
Proof.
  intros Hlen. destruct l as [|z l _] using rev_ind; [cbn in Hlen; lia|].
  destruct l as [|a l _] using rev_ind.
  { cbn in Hlen. lia. }
  exists l, a, z. by rewrite <- app_assoc.
Qed.

Lemma splice_start_in (l : list Z) (k : nat) :
  k ≤ length l → splice_start l (Z.of_nat k) = k.
Proof.
  intros Hk. unfold splice_start.
  replace (Z.of_nat k <? 0)%Z with false by (symmetry; apply Z.ltb_ge; lia).
  rewrite Z.min_l by lia. apply Nat2Z.id.
Qed.

Lemma at_or_in (l : list Z) (k : nat) (v d : Z) :
  l !! k = Some v → at_or l (Z.of_nat k) d = v.
Proof.
  intros Hk. unfold at_or.
  replace (Z.of_nat k <? 0)%Z with false by (symmetry; apply Z.ltb_ge; lia).
  by rewrite Nat2Z.id, Hk.
Qed.

Lemma addLayer_ends (init : list Z) (a z : Z) :
  addLayer (init ++ [a; z]) = init ++ [a; Z.max 1 (round_half (a + z)); z].
Proof.
  unfold addLayer. rewrite length_app. cbn [length].
  replace (Z.of_nat (length init + 2) - 1)%Z with (Z.of_nat (length init + 1)) by lia.
  replace (Z.of_nat (length init + 1) - 1)%Z with (Z.of_nat (length init)) by lia.
  rewrite (at_or_in _ (length init) a).
  2:{ by rewrite lookup_app_r, Nat.sub_diag by lia. }
  rewrite (at_or_in _ (length init + 1) z).
  2:{ rewrite lookup_app_r by lia. by replace (length init + 1 - length init) with 1 by lia. }
  unfold splice_insert. rewrite splice_start_in by (rewrite length_app; cbn; lia).
  rewrite take_app_ge, drop_app_ge by lia.
  replace (length init + 1 - length init) with 1 by lia.
  cbn. by rewrite <- app_assoc.
Qed.

Lemma removeLayer_ends (init : list Z) (a m z : Z) :
  removeLayer (init ++ [a; m; z]) = init ++ [a; z].
Proof.
  unfold removeLayer. rewrite length_app. cbn [length].
  replace (length init + 3 <=? 2) with false by (symmetry; apply Nat.leb_gt; lia).
  replace (Z.of_nat (length init + 3) - 2)%Z with (Z.of_nat (length init + 1)) by lia.
  unfold splice_remove. rewrite splice_start_in by (rewrite length_app; cbn; lia).
  rewrite take_app_ge, drop_app_ge by lia.
  replace (length init + 1 - length init) with 1 by lia.
  replace (S (length init + 1) - length init) with 2 by lia.
  cbn. by rewrite <- app_assoc.
Qed.

(** X13. Adding a layer to a topology of at least two layers inserts one
    layer just before the last, sized as the mean of its two neighbours with
    a half rounded up and never below 1, and leaves every other layer as it
    was; removing a layer then gives the topology back.  On a single layer
    the removal does not undo the addition, because a topology of two layers
    is never shortened. *)
Theorem addLayer_removeLayer (init : list Z) (a z : Z) :
  addLayer (init ++ [a; z]) = init ++ [a; Z.max 1 (round_half (a + z)); z]
  ∧ removeLayer (addLayer (init ++ [a; z])) = init ++ [a; z]
  ∧ addLayer [z] = [Z.max 1 (round_half (3 + z)); z]
  ∧ removeLayer (addLayer [z]) = addLayer [z]
  ∧ addLayer [] = [3%Z].
Proof.
  split; [apply addLayer_ends|].
  split; [by rewrite addLayer_ends, removeLayer_ends|]. done.
Qed.

Lemma well_formed_insert (l : list Z) (i : nat) (v : Z) :
  well_formed l → (1 ≤ v)%Z → well_formed (<[i := v]> l).
Proof.
  intros [Hlen Hall] Hv. split; [by rewrite length_insert|].
  apply Forall_insert; done.
Qed.

(** X14. Every edit keeps the topology well formed: starting from at least
    two layers of at least one neuron each, adding or removing a layer or a
    neuron gives again at least two layers of at least one neuron each, and
    adding or removing a layer never touches the first or the last layer. *)
Theorem edits_keep_topology (e : edit) (prev next : list Z) :
  well_formed prev → apply_edit e prev = Some next →
  well_formed next
  ∧ (e = AddLayer ∨ e = RemoveLayer →
     head next = head prev ∧ last next = last prev).
Proof.
  intros Hwf Hedit. pose proof Hwf as [Hlen Hall].
  destruct e as [| |i|i]; cbn in Hedit.
  - injection Hedit as <-.
    destruct (ends_of prev Hlen) as (init & a & z & ->).
    rewrite addLayer_ends. split.
    + split; [rewrite length_app; cbn; lia|].
      apply Forall_app in Hall as [Hinit Haz].
      apply Forall_app. split; [done|].
      apply Forall_cons in Haz as [Ha Hz].
      repeat constructor; [done|lia|by apply Forall_cons in Hz as [Hz _]].
    + intros _. split.
      * by destruct init.
      * by rewrite !last_app.
  - injection Hedit as <-.
    destruct (decide (length prev ≤ 2)) as [Hshort|Hlong].
    { unfold removeLayer.
      replace (length prev <=? 2) with true by (symmetry; by apply Nat.leb_le).
      done. }
    destruct (ends_of prev Hlen) as (init & m & z & ->).
    destruct init as [|a init _] using rev_ind.
    { cbn in Hlong. lia. }
    rewrite <- app_assoc. cbn [app]. rewrite removeLayer_ends. split.
    + split; [rewrite length_app; cbn; lia|].
      rewrite <- app_assoc in Hall. cbn [app] in Hall.
      apply Forall_app in Hall as [Hinit Hrest].
      apply Forall_app. split; [done|].
      apply Forall_cons in Hrest as [Ha Hrest].
      apply Forall_cons in Hrest as [_ Hz].
      by apply Forall_cons.
    + intros _. split.
      * by destruct init.
      * by rewrite !last_app.
  - unfold addNeuron in Hedit. destruct (prev !! i) as [n|] eqn:Hn; [|done].
    injection Hedit as <-. split; [|by intros [|]].
    apply well_formed_insert; [done|].
    pose proof (Forall_lookup_1 _ _ _ _ Hall Hn). cbn beta in *. lia.
  - unfold removeNeuron in Hedit. destruct (prev !! i) as [n|] eqn:Hn; [|done].
    injection Hedit as <-. split; [|by intros [|]].
    destruct (Z.leb_spec n 1); [done|].
    apply well_formed_insert; [done|lia].
Qed.

(** X15. Removing a neuron from a layer of one neuron or fewer changes
    nothing, and removing a neuron undoes adding one to a layer that had at
    least one. *)
Theorem neuron_round_trip (i : nat) (prev : list Z) (n : Z) :
  prev !! i = Some n →
  ((n ≤ 1)%Z → removeNeuron i prev = Some prev)
  ∧ ((1 ≤ n)%Z → addNeuron i prev ≫= removeNeuron i = Some prev)
  ∧ ((1 < n)%Z → removeNeuron i prev ≫= addNeuron i = Some prev).
Proof.
  intros Hn. assert (i < length prev) as Hi by (by eapply lookup_lt_Some).
  unfold addNeuron, removeNeuron. rewrite Hn. cbn [mbind option_bind].
  split; [|split].
  - intros Hle. by replace (n <=? 1)%Z with true by (symmetry; by apply Z.leb_le).
  - intros Hge. rewrite list_lookup_insert_eq by done. cbn [mbind option_bind].
    replace (n + 1 <=? 1)%Z with false by (symmetry; apply Z.leb_gt; lia).
    rewrite list_insert_insert_eq. f_equal.
    replace (n + 1 - 1)%Z with n by lia. by apply list_insert_id.
  - intros Hgt.
    replace (n <=? 1)%Z with false by (symmetry; apply Z.leb_gt; lia).
    rewrite list_lookup_insert_eq by done. cbn [mbind option_bind].
    rewrite list_insert_insert_eq. f_equal.
    replace (n - 1 + 1)%Z with n by lia. by apply list_insert_id.
Qed.

End TopologyEdits.

Lemma edits_keep_topology_witness :
  Editor.well_formed [3; 2]%Z.
Proof.
  apply (edits_keep_topology Editor.RemoveLayer [3; 2]%Z [3; 2]%Z).
  - split; [cbn; lia | repeat constructor; lia].
  - reflexivity.
Defined.

Lemma neuron_round_trip_witness :
  Editor.addNeuron 1 [3; 4; 2]%Z ≫= Editor.removeNeuron 1 = Some [3; 4; 2]%Z.
Proof.
  apply (proj1 (proj2 (neuron_round_trip 1 [3; 4; 2]%Z 4 eq_refl))). lia.
Defined.

(** ** One draw per parameter *)

Section DrawCount.

Import Completion Rng NeuralNet GenSpec Draws.

Lemma parameters_of_layer_at (seed : Num.number) (T : list Z) (l : nat) :
  parameters_of (layer_at seed T l) = draws_of T l.
Proof.
  unfold parameters_of, layer_at, draws_of. cbn [W b].
  rewrite <- list_fmap_compose, length_fmap, length_seq. f_equal.
  rewrite <- (sum_list_const (cols T l) 0 (rows T l)). f_equal.
  apply list_fmap_ext. intros _ r _. cbn. by rewrite length_fmap, length_seq.
Qed.

(** X16. For sizes below [2^32], generation calls the generator exactly once
    per weight and bias: the state it leaves behind is the seed advanced as
    many times as the generated layers have parameters. *)
Theorem one_draw_per_parameter (T : list Z) (seed : Num.number) :
  Forall (fun n => (n < 2 ^ 32)%Z) T →
  ∃ ps, generate T seed = Normal ps
    ∧ transitions call T seed
      = (Normal ps, Nat.iter (sum_list (parameters_of <$> ps)) next seed).
Proof.
  intros Hsizes. eexists. split; [by apply generate_layers|].
  unfold transitions.
  rewrite (uses_mapM _ (draws_of T) (layer_from T))
    by (intros l _; by apply uses_transition, sizes_ok).
  rewrite layers_from_offset. f_equal.
  rewrite <- list_fmap_compose. f_equal. f_equal.
  apply list_fmap_ext. intros _ l _. unfold compose.
  by rewrite parameters_of_layer_at.
Qed.

End DrawCount.

Lemma one_draw_per_parameter_witness :
  ∃ ps, NeuralNet.transitions Rng.call [2; 3; 1]%Z (Num.Finite 297)
        = (Completion.Normal ps, Nat.iter 13 Rng.next (Num.Finite 297)).
Proof.
  destruct (one_draw_per_parameter [2; 3; 1]%Z (Num.Finite 297))
    as (ps & Hps & Hrun).
  - repeat constructor.
  - exists ps. rewrite Hrun. f_equal. f_equal.
    vm_compute in Hps. injection Hps as <-. reflexivity.
Defined.
